(** * Portfolio page: scroll tracker, project tabs, contact form, base path

  A shallow embedding of the interaction logic of [site/app/page.tsx]
  and of the two build configurations [site/next.config.mjs] and
  [site/next.config.ts].

  Conventions.
  - A JavaScript number is the rational [Q] that the double stands for.
    The source applies [+], [-], [>=] and [Math.ceil] to numbers: [+]
    and [-] round the exact result to the nearest binary64 value, ties to
    even, as IEEE 754 does; [>=] and [Math.ceil] are exact. Pixel
    measures are finite and far from 2^1024, so NaN, the infinities and
    overflow are left out.
  - Section identifiers, tab keys and texts are strings, as at run time.
  - [offsetsRef.current], a [Partial<Record<SectionId, number>>], is a
    finite map from strings to [Q]; a missing key reads as [undefined].
  - The asynchronous submit handler is cut at its [await]: the part that
    runs on the submit event and the part that runs once [fetch] has
    settled each produce the list of effects they perform, in program
    order; the page applies them to its state. *)

From Stdlib Require Import QArith Qround Qabs Qpower Lqa.
From stdpp Require Import gmap strings list fin_maps.

#[local] Open Scope string_scope.
#[local] Open Scope list_scope.

(** ** JavaScript numbers *)

Module JsNumber.

Definition pow2 (k : Z) : Q := (2 ^ k)%Q.

(** The exponent of a positive rational: [2^e <= q < 2^(e+1)]. *)
Definition exponent (q : Q) : Z :=
  let a := (Z.log2 (Qnum q) - Z.log2 (Zpos (Qden q)))%Z in
  if Qle_bool (pow2 a) q then a else (a - 1)%Z.

(** Rounding to the nearest integer, a tie going to the even one. *)
Definition roundHalfEven (x : Q) : Z :=
  let f := Qfloor x in
  match Qcompare (x - inject_Z f) (1 # 2) with
  | Lt => f
  | Gt => (f + 1)%Z
  | Eq => if Z.even f then f else (f + 1)%Z
  end.

(** The exponent of the last place of a binary64 number in the binade
    of [q]: 53 bits of precision, subnormal below [2^-1022]. *)
Definition ulpExponent (q : Q) : Z := (Z.max (exponent q) (-1022) - 52)%Z.

(** A positive rational rounded to the nearest binary64 value. *)
Definition roundPos (q : Q) : Q :=
  (inject_Z (roundHalfEven (q * pow2 (- ulpExponent q))) * pow2 (ulpExponent q))%Q.

(** Any rational rounded to the nearest binary64 value, ties to even. *)
Definition binary64 (q : Q) : Q :=
  match Qcompare q 0 with
  | Eq => 0%Q
  | Gt => roundPos q
  | Lt => (- roundPos (- q))%Q
  end.

(** [x + y] and [x - y] on numbers. *)
Definition jsAdd (x y : Q) : Q := binary64 (x + y).
Definition jsSub (x y : Q) : Q := binary64 (x - y).

End JsNumber.

(** ** Active-section tracker ([Page], the effect installed on mount) *)

Module Scroll.
Import JsNumber.

(** [const SECTION_IDS = [...] as const] *)
Definition SECTION_IDS : list string :=
  ["about"; "projects"; "certificates"; "skills"; "experience";
   "education"; "contact"].

(** What the handlers read from the browser when they run. *)
Record Dom := {
  scrollY : Q;              (* window.scrollY *)
  innerHeight : Q;          (* window.innerHeight *)
  scrollHeight : Q;         (* document.documentElement.scrollHeight *)
  headerHeight : option Q;  (* querySelector("header")?.getBoundingClientRect().height *)
  elementTop : string -> option Q
                            (* getElementById(id)?.getBoundingClientRect().top *)
}.

(** [computeOffsets]: a fresh object, one entry per section found. *)
Definition computeOffsets (d : Dom) : gmap string Q :=
  foldl (fun m id =>
           match elementTop d id with
           | Some top => <[id := jsAdd top (scrollY d)]> m
           | None => m
           end) ∅ SECTION_IDS.

(** [headerH = ...?.getBoundingClientRect().height ?? 0] *)
Definition headerH (d : Dom) : Q := default 0%Q (headerHeight d).

(** [y = window.scrollY + headerH + 10] *)
Definition scrollPos (d : Dom) : Q := jsAdd (jsAdd (scrollY d) (headerH d)) 10.

(** [Math.ceil(window.scrollY + window.innerHeight) >= doc.scrollHeight - 2] *)
Definition atBottom (d : Dom) : bool :=
  Qle_bool (jsSub (scrollHeight d) 2)
           (inject_Z (Qceiling (jsAdd (scrollY d) (innerHeight d)))).

(** [typeof off === "number" && y >= off], for [off = offsetsRef.current[id]] *)
Definition reached (offs : gmap string Q) (y : Q) (id : string) : bool :=
  match offs !! id with
  | Some off => Qle_bool off y
  | None => false
  end.

(** The [for (const id of SECTION_IDS)] loop with its [else break]. *)
Fixpoint sectionLoop (offs : gmap string Q) (y : Q)
         (ids : list string) (current : string) : string :=
  match ids with
  | [] => current
  | id :: rest =>
      if reached offs y id then sectionLoop offs y rest id else current
  end.

(** The identifiers whose offset the loop reads and compares, in order. *)
Fixpoint sectionLoop_reads (offs : gmap string Q) (y : Q)
         (ids : list string) : list string :=
  match ids with
  | [] => []
  | id :: rest =>
      id :: (if reached offs y id then sectionLoop_reads offs y rest else [])
  end.

(** [onScroll]: the value handed to [setActive]. *)
Definition onScroll (offs : gmap string Q) (d : Dom) : string :=
  if atBottom d then "contact"
  else sectionLoop offs (scrollPos d) SECTION_IDS "about".

(** The offset comparisons one run of [onScroll] performs. *)
Definition onScroll_reads (offs : gmap string Q) (d : Dom) : list string :=
  if atBottom d then []
  else sectionLoop_reads offs (scrollPos d) SECTION_IDS.

(** Position of an identifier in the declared order. *)
Definition declared_at (i : nat) (id : string) : Prop :=
  SECTION_IDS !! i = Some id.

(** [a] is the last identifier, in declared order, whose recorded offset
    is at most [y]. *)
Definition last_reached (offs : gmap string Q) (y : Q) (a : string) : Prop :=
  exists i, declared_at i a /\ reached offs y a = true /\
    forall j b, (i < j)%nat -> declared_at j b -> reached offs y b = false.

(** The document holds the seven sections, and none of them starts
    above the section declared before it. *)
Definition laid_out_in_order (d : Dom) : Prop :=
  (forall id, id ∈ SECTION_IDS -> is_Some (elementTop d id)) /\
  (forall i a b ta tb,
      declared_at i a -> declared_at (S i) b ->
      elementTop d a = Some ta -> elementTop d b = Some tb -> (ta <= tb)%Q).

End Scroll.

(** ** Tabbed project lists ([ProjectsTabbed]) *)

Module Tabs.

Record Project := { name : string; desc : string; link : string }.

(** [const PROJECTS = { research: [...], applied: [...] } as const] *)
Definition PROJECTS : gmap string (list Project) :=
  <["research" :=
      [ {| name := "AI-FAPS: Multi-Modal · Multi-View · Multi-Task Pipeline";
           desc := "Deep learning pipeline for quality monitoring in industrial manufacturing.";
           link := "https://github.com/uddipan77/AI-FAPS-Multi-Modal-View-Task-Pipeline" |};
        {| name := "Self/Semi-Supervised Image Classification (Industrial Inspection)";
           desc := "Comparative assessment of self-, semi-, and combined learning approaches.";
           link := "https://github.com/uddipan77/ai-faps-self-semi-combined-dl-pipeline-industrial-inspection" |} ]]>
  (<["applied" :=
      [ {| name := "OCR → Machine Translation for Inventory Documents";
           desc := "Reorders OCR text and translates to Chinese; evaluates with BLEU.";
           link := "https://github.com/uddipan77/OCR-to-Machine-Translation" |};
        {| name := "Generative AI Cold-Email Generator";
           desc := "Llama 3.1, LangChain, ChromaDB, Streamlit, Groq Cloud.";
           link := "https://github.com/uddipan77/generate_email_with_llm" |};
        {| name := "Local LLM-based RAG System for Your Personal Documents";
           desc := "Private, fully local RAG for Germany’s paperwork pain: convert docs to PDFs, OCR text, store embeddings in OpenSearch, and query with Ollama—secure and offline.";
           link := "https://github.com/uddipan77/local_rag_talk_with_your_docs/tree/main" |};
        {| name := "Fullstack Customer Churn Prediction App";
           desc := "FastAPI + React; batch & single predictions; multiple models (KNN, SVM, RF, LR, DT, AdaBoost).";
           link := "https://github.com/uddipan77/fullstack_customer_churn" |} ]]> ∅).

Record TabDef := { key : string; label : string }.

(** [const tabs = [...] as const] *)
Definition tabs : list TabDef :=
  [ {| key := "research"; label := "Research Projects" |};
    {| key := "applied"; label := "Applied & Industry Projects" |} ].

(** [useState<"research" | "applied">("research")] *)
Definition initialTab : string := "research".

(** [onClick={() => setTab(t.key)}] on the [i]-th button of [tabs.map];
    there is no button beyond the end of [tabs]. *)
Definition click (i : nat) (tab : string) : string :=
  match tabs !! i with
  | Some t => key t
  | None => tab
  end.

(** The [<a>] tile rendered for one project. *)
Record Card := { href : string; heading : string; body : string }.

Definition card (p : Project) : Card :=
  {| href := link p; heading := name p; body := desc p |}.

(** [PROJECTS[tab].map(...)]; [None] is the [TypeError] raised by
    [.map] on [undefined] for a key the object does not have. *)
Definition grid (tab : string) : option (list Card) :=
  map card <$> PROJECTS !! tab.

(** [tab === t.key], the highlighted button. *)
Definition highlighted (tab : string) (t : TabDef) : bool :=
  String.eqb tab (key t).

(** States of the component: the initial one and those after clicks. *)
Inductive reachable : string -> Prop :=
| tab_initial : reachable initialTab
| tab_click i tab : reachable tab -> reachable (click i tab).

End Tabs.

(** ** Contact form ([handleContactSubmit]) *)

Module Contact.

Definition FORMSPREE_ENDPOINT : string := "https://formspree.io/f/xyzdbayk".

(** [type Toast = { kind: "success" | "error"; text: string } | null] *)
Inductive ToastKind := success | error.
Record ToastMsg := { kind : ToastKind; text : string }.

(** [type FormspreeError], [type FormspreeResponse]: the shape the
    source casts the parsed body to. *)
Record FormspreeError :=
  { message : option string; field : option string; code : option string }.
Record FormspreeResponse := { errors : option (list FormspreeError) }.

(** A settled [fetch]. [json = None]: [res.json()] rejects. *)
Record Response := { status : nat; json : option FormspreeResponse }.
Inductive FetchResult := Resolved (res : Response) | Rejected.

(** [res.ok] (Fetch standard): the status is in the range 200-299. *)
Definition ok (res : Response) : bool :=
  (200 <=? status res)%nat && (status res <=? 299)%nat.

(** The user-editable controls of the form, in document order. *)
Record FormFields := {
  input_gotcha : string;      (* name="_gotcha", hidden honeypot *)
  input_name : string;        (* name="name" *)
  input_email : string;       (* name="email" *)
  textarea_message : string   (* name="message" *)
}.

(** [new FormData(form)]; the hidden [_subject] input has a fixed value. *)
Definition FormData (f : FormFields) : list (string * string) :=
  [ ("_gotcha", input_gotcha f);
    ("_subject", "New message from portfolio site");
    ("name", input_name f);
    ("email", input_email f);
    ("message", textarea_message f) ].

(** [form.reset()]: no control declares a default value. *)
Definition resetForm : FormFields :=
  {| input_gotcha := ""; input_name := ""; input_email := "";
     textarea_message := "" |}.

(** Every field of the form, the hidden ones included, holds the empty
    string. *)
Definition allFieldsEmpty (f : FormFields) : Prop :=
  Forall (fun kv => snd kv = "") (FormData f).

(** [Boolean(x)] for [x : string | undefined] *)
Definition Boolean (x : option string) : bool :=
  match x with
  | Some s => negb (String.eqb s "")
  | None => false
  end.

(** [Array.prototype.join]: [undefined] elements print as the empty string. *)
Definition join (sep : string) (xs : list (option string)) : string :=
  String.concat sep (map (default "") xs).

(** [j.errors?.map((x) => x.message).filter(Boolean).join(", ")];
    [None] is [undefined], the result of the short-circuited chain. *)
Definition errorsChain (j : FormspreeResponse) : option string :=
  (fun es => join ", " (List.filter Boolean (map message es))) <$> errors j.

Definition fallbackText : string := "Could not send message. Please try again.".

(** [const msg = ... ?? "Could not send message. Please try again."] *)
Definition msg (j : FormspreeResponse) : string :=
  default fallbackText (errorsChain j).

(** [await res.json().catch(() => ({}))] *)
Definition parsedBody (res : Response) : FormspreeResponse :=
  default {| errors := None |} (json res).

Definition successToast : ToastMsg :=
  {| kind := success; text := "Message sent! I’ll get back to you soon." |}.
Definition networkToast : ToastMsg :=
  {| kind := error; text := "Network error. Please try again." |}.

(** [() => setToast(null)] *)
Inductive TimerCallback := ClearToast.

(** What the handler does to the page and the outside world. *)
Inductive Effect :=
| PreventDefault                                     (* e.preventDefault() *)
| SetSending (b : bool)                              (* setSending(b) *)
| Fetch (url : string) (data : list (string * string)) (* fetch(url, {method: "POST", body}) *)
| FormReset                                          (* form.reset() *)
| SetToast (t : option ToastMsg)                     (* setToast(t) *)
| SetTimeout (cb : TimerCallback) (ms : nat).        (* setTimeout(cb, ms) *)

(** [handleContactSubmit] up to [await fetch(...)]. *)
Definition handleContactSubmit (sending : bool) (form : FormFields) : list Effect :=
  PreventDefault ::
  (if sending then []
   else [SetSending true; Fetch FORMSPREE_ENDPOINT (FormData form)]).

(** The [try] body after the [await], and the [catch] block. *)
Definition tryCatch (r : FetchResult) : list Effect :=
  match r with
  | Resolved res =>
      if ok res then [FormReset; SetToast (Some successToast)]
      else [SetToast (Some {| kind := error; text := msg (parsedBody res) |})]
  | Rejected => [SetToast (Some networkToast)]
  end.

(** The [finally] block. *)
Definition finallyBlock : list Effect :=
  [SetSending false; SetTimeout ClearToast 4000].

(** [handleContactSubmit] from the point where [fetch] has settled. *)
Definition handleContactSubmit_settled (r : FetchResult) : list Effect :=
  tryCatch r ++ finallyBlock.

(** The three ways a submission can end. *)
Inductive Outcome := Sent | RemoteFailure | TransportFailure.

Definition outcome (r : FetchResult) : Outcome :=
  match r with
  | Resolved res => if ok res then Sent else RemoteFailure
  | Rejected => TransportFailure
  end.

Definition isSetToast (e : Effect) : bool :=
  match e with SetToast _ => true | _ => false end.
Definition isFetch (e : Effect) : bool :=
  match e with Fetch _ _ => true | _ => false end.
Definition isSetTimeout (e : Effect) : bool :=
  match e with SetTimeout _ _ => true | _ => false end.
Definition isSetSending (e : Effect) : bool :=
  match e with SetSending _ => true | _ => false end.

(** The messages an [errors] array carries that are not empty. *)
Definition truthy_messages (es : list FormspreeError) : list string :=
  filter (fun s => s <> "") (omap message es).

(** The plain concatenation of the message fields of an [errors] array:
    one message after the other, nothing in between. *)
Definition concatenated_messages (es : list FormspreeError) : string :=
  String.concat "" (omap message es).

End Contact.

(** ** Deployment base path ([BASE], [next.config.mjs], [next.config.ts]) *)

Module Config.

(** [process.env.NODE_ENV === "production"]; the variable may be unset. *)
Definition isProd (NODE_ENV : option string) : bool :=
  bool_decide (NODE_ENV = Some "production").

(** [page.tsx]: [const BASE = ... ? "/portfolio_Uddipan" : ""] *)
Definition BASE (NODE_ENV : option string) : string :=
  if isProd NODE_ENV then "/portfolio_Uddipan" else "".

Record Cert := {
  title : string;
  issuer : option string;
  year : option string;
  file : option string;
  image : option string;
  verify : option string
}.

(** [const CERTS: Cert[]] *)
Definition CERTS : list Cert :=
  [ {| title := "MCP Certificate (Preview)"; issuer := Some "Microsoft";
       year := Some "—"; file := None;
       image := Some "/images/certificates/mcp.webp"; verify := None |};
    {| title := "LangChain Academy — Deep Research with LangGraph";
       issuer := Some "LangChain"; year := Some "2025";
       file := Some "/assets/certificates/langchain-academy-deep-research-langgraph.pdf";
       image := None; verify := None |};
    {| title := "LangSmith Fundamentals"; issuer := Some "LangChain";
       year := Some "2025"; file := Some "/assets/certificates/langsmith.pdf";
       image := None; verify := None |};
    {| title := "Docker Essentials"; issuer := Some "Docker"; year := Some "2025";
       file := Some "/assets/certificates/docker_certificate.pdf";
       image := None; verify := None |} ].

(** The URLs of static assets the page renders: the resume link, the
    profile image, and for each certificate its image and its PDF. *)
Definition assetLinks (NODE_ENV : option string) : list string :=
  let B := BASE NODE_ENV in
  (B +:+ "/assets/files/ResumeUddipan.pdf") ::
  (B +:+ "/images/profile.png") ::
  flat_map (fun c => option_list ((fun p => B +:+ p) <$> image c) ++
                     option_list ((fun p => B +:+ p) <$> file c)) CERTS.

Record NextConfig := {
  output : string;
  basePath : string;
  assetPrefix : string;
  images_unoptimized : bool
}.

Definition repo : string := "portfolio_Uddipan".

(** [next.config.mjs] *)
Definition next_config_mjs (NODE_ENV : option string) : NextConfig :=
  {| output := "export";
     basePath := if isProd NODE_ENV then "/" +:+ repo else "";
     assetPrefix := if isProd NODE_ENV then "/" +:+ repo +:+ "/" else "";
     images_unoptimized := true |}.

(** [next.config.ts]: the object literal reads no environment variable. *)
Definition next_config_ts : NextConfig :=
  {| output := "export";
     basePath := "/portfolio_Uddipan";
     assetPrefix := "/portfolio_Uddipan/";
     images_unoptimized := true |}.

(** Next.js, which is not part of the repository, looks for its
    configuration under these names, in this order, and loads the first
    file that exists. *)
Definition CONFIG_FILES : list string :=
  ["next.config.js"; "next.config.mjs"; "next.config.ts"].

(** The configuration files of the repository and what each exports. *)
Definition configFiles (NODE_ENV : option string) : gmap string NextConfig :=
  <["next.config.mjs" := next_config_mjs NODE_ENV]>
    (<["next.config.ts" := next_config_ts]> ∅).

(** The file a build loads, with the configuration it exports. *)
Definition loadConfig (NODE_ENV : option string) : option (string * NextConfig) :=
  head (omap (fun f => (fun c => (f, c)) <$> configFiles NODE_ENV !! f)
             CONFIG_FILES).

End Config.

(** ** The page component: its state and the events that change it

    Handlers read the state of the latest render: React renders again
    after each event that sets state, before the browser delivers the
    next one, so [handleContactSubmit] sees the current [sending]. *)

Module Page.
Import Scroll Contact.

Record PageState := {
  active : string;                      (* useState<SectionId>("about") *)
  offsets : gmap string Q;              (* offsetsRef.current *)
  listening : bool;                     (* the mount effect has run *)
  sending : bool;                       (* useState(false) *)
  toast : option ToastMsg;              (* useState<Toast>(null) *)
  form : FormFields;                    (* the controls of the <form> *)
  inflight : list (list (string * string)); (* requests issued, not yet settled *)
  sent : list (list (string * string)); (* every request issued so far *)
  timers : list (TimerCallback * nat)   (* pending timeouts, oldest first *)
}.

Definition initial : PageState :=
  {| active := "about"; offsets := ∅; listening := false; sending := false;
     toast := None; form := resetForm; inflight := []; sent := [];
     timers := [] |}.

Definition setActive (a : string) (s : PageState) : PageState :=
  {| active := a; offsets := offsets s; listening := listening s;
     sending := sending s; toast := toast s; form := form s;
     inflight := inflight s; sent := sent s; timers := timers s |}.

Definition setOffsets (m : gmap string Q) (s : PageState) : PageState :=
  {| active := active s; offsets := m; listening := listening s;
     sending := sending s; toast := toast s; form := form s;
     inflight := inflight s; sent := sent s; timers := timers s |}.

Definition setListening (b : bool) (s : PageState) : PageState :=
  {| active := active s; offsets := offsets s; listening := b;
     sending := sending s; toast := toast s; form := form s;
     inflight := inflight s; sent := sent s; timers := timers s |}.

Definition setSending (b : bool) (s : PageState) : PageState :=
  {| active := active s; offsets := offsets s; listening := listening s;
     sending := b; toast := toast s; form := form s;
     inflight := inflight s; sent := sent s; timers := timers s |}.

Definition setToast (t : option ToastMsg) (s : PageState) : PageState :=
  {| active := active s; offsets := offsets s; listening := listening s;
     sending := sending s; toast := t; form := form s;
     inflight := inflight s; sent := sent s; timers := timers s |}.

Definition setForm (f : FormFields) (s : PageState) : PageState :=
  {| active := active s; offsets := offsets s; listening := listening s;
     sending := sending s; toast := toast s; form := f;
     inflight := inflight s; sent := sent s; timers := timers s |}.

Definition setInflight (l : list (list (string * string))) (s : PageState) : PageState :=
  {| active := active s; offsets := offsets s; listening := listening s;
     sending := sending s; toast := toast s; form := form s;
     inflight := l; sent := sent s; timers := timers s |}.

Definition issue (data : list (string * string)) (s : PageState) : PageState :=
  {| active := active s; offsets := offsets s; listening := listening s;
     sending := sending s; toast := toast s; form := form s;
     inflight := inflight s ++ [data]; sent := sent s ++ [data];
     timers := timers s |}.

Definition setTimers (l : list (TimerCallback * nat)) (s : PageState) : PageState :=
  {| active := active s; offsets := offsets s; listening := listening s;
     sending := sending s; toast := toast s; form := form s;
     inflight := inflight s; sent := sent s; timers := l |}.

(** One effect of the submit handler, applied to the page. *)
Definition applyEffect (s : PageState) (e : Effect) : PageState :=
  match e with
  | PreventDefault => s
  | SetSending b => setSending b s
  | Fetch _ data => issue data s
  | FormReset => setForm resetForm s
  | SetToast t => setToast t s
  | SetTimeout cb ms => setTimers (timers s ++ [(cb, ms)]) s
  end.

Definition run (es : list Effect) (s : PageState) : PageState :=
  foldl applyEffect s es.

Definition runCallback (cb : TimerCallback) (s : PageState) : PageState :=
  match cb with
  | ClearToast => setToast None s
  end.

Inductive Event :=
| Mount (d : Dom)        (* the effect of [useEffect(..., [])] *)
| ScrollEv (d : Dom)     (* "scroll" *)
| Resize (d : Dom)       (* "resize" *)
| Load (d : Dom)         (* "load" *)
| Input (f : FormFields) (* the visitor edits the form *)
| Submit                 (* "submit" on the form *)
| Settle (r : FetchResult) (* the oldest request in flight settles *)
| Timeout.               (* the oldest pending timeout fires *)

Definition step (s : PageState) (ev : Event) : PageState :=
  match ev with
  | Mount d =>
      let m := computeOffsets d in
      setListening true (setActive (onScroll m d) (setOffsets m s))
  | ScrollEv d =>
      if listening s then setActive (onScroll (offsets s) d) s else s
  | Resize d | Load d =>
      if listening s then setOffsets (computeOffsets d) s else s
  | Input f => setForm f s
  | Submit => run (handleContactSubmit (sending s) (form s)) s
  | Settle r =>
      match inflight s with
      | [] => s
      | _ :: rest => run (handleContactSubmit_settled r) (setInflight rest s)
      end
  | Timeout =>
      match timers s with
      | [] => s
      | (cb, _) :: rest => runCallback cb (setTimers rest s)
      end
  end.

Inductive reachable : PageState -> Prop :=
| reach_initial : reachable initial
| reach_step s ev : reachable s -> reachable (step s ev).

End Page.

(** ** Theme toggle ([ThemeToggle]) and the document it acts on *)

Module Theme.

(** The component's state together with what it touches outside itself. *)
Record ThemeState := {
  mounted : bool;                 (* useState(false) *)
  theme : string;                 (* useState<"light" | "dark">("light") *)
  storage : gmap string string;   (* localStorage *)
  htmlClasses : gset string;      (* document.documentElement.classList *)
  bodyClasses : gset string       (* document.body.classList *)
}.

(** [classList.toggle(token, force)] *)
Definition classToggle (token : string) (force : bool) (cl : gset string)
  : gset string :=
  if force then {[token]} ∪ cl else cl ∖ {[token]}.

(** [initial = stored ?? (prefersDark ? "dark" : "light")], where
    [stored = localStorage.getItem("theme")] and [prefersDark] is the
    result of the media query (false when [matchMedia] is missing). *)
Definition initialTheme (stored : option string) (prefersDark : bool) : string :=
  default (if prefersDark then "dark" else "light") stored.

(** The effect of [useEffect(..., [])]. *)
Definition mountEffect (prefersDark : bool) (s : ThemeState) : ThemeState :=
  let initial := initialTheme (storage s !! "theme") prefersDark in
  {| mounted := true;
     theme := initial;
     storage := storage s;
     htmlClasses := classToggle "dark" (String.eqb initial "dark") (htmlClasses s);
     bodyClasses := classToggle "dark" (String.eqb initial "dark") (bodyClasses s) |}.

(** [const toggle = () => {...}] *)
Definition toggle (s : ThemeState) : ThemeState :=
  let next := if String.eqb (theme s) "dark" then "light" else "dark" in
  {| mounted := mounted s;
     theme := next;
     storage := <["theme" := next]> (storage s);
     htmlClasses := classToggle "dark" (String.eqb next "dark") (htmlClasses s);
     bodyClasses := classToggle "dark" (String.eqb next "dark") (bodyClasses s) |}.

(** [title={mounted ? (theme === "dark" ? ... : ...) : "Toggle theme"}] *)
Definition title (s : ThemeState) : string :=
  if mounted s then
    if String.eqb (theme s) "dark" then "Switch to light" else "Switch to dark"
  else "Toggle theme".

(** The child of the button: [<Sun/>], [<Moon/>] or the empty [<span>]. *)
Inductive Icon := Sun | Moon | Placeholder.

Definition icon (s : ThemeState) : Icon :=
  if mounted s then
    if String.eqb (theme s) "dark" then Sun else Moon
  else Placeholder.

(** [layout.tsx]: the classes of [<body>] in a freshly loaded document. *)
Definition layoutBodyClasses : gset string :=
  list_to_set
    ["min-h-screen"; "antialiased"; "bg-white"; "text-neutral-900";
     "dark:bg-black"; "dark:text-neutral-100"; "overflow-x-hidden";
     "scroll-smooth"].

(** A page load: a new document and a new component, the same
    [localStorage]. [<html>] carries no class in [layout.tsx]. *)
Definition pageLoad (store : gmap string string) : ThemeState :=
  {| mounted := false; theme := "light"; storage := store;
     htmlClasses := ∅; bodyClasses := layoutBodyClasses |}.

Inductive Event :=
| MountEv (prefersDark : bool)   (* the mount effect runs *)
| Click.                         (* the visitor clicks the button *)

Definition step (s : ThemeState) (ev : Event) : ThemeState :=
  match ev with
  | MountEv prefersDark => mountEffect prefersDark s
  | Click => toggle s
  end.

End Theme.

(** ** Navigation links ([navLinks], the [<nav>] of [Page]) *)

Module Nav.
Import Scroll.

(** [String.prototype.toUpperCase] on one ASCII character: the letters
    a-z move to A-Z, every other ASCII character stays. *)
Definition toUpperCase (c : Ascii.ascii) : Ascii.ascii :=
  let n := Ascii.nat_of_ascii c in
  if (97 <=? n)%nat && (n <=? 122)%nat then Ascii.ascii_of_nat (n - 32) else c.

(** [id.charAt(0).toUpperCase() + id.slice(1)] *)
Definition capitalize (id : string) : string :=
  match id with
  | EmptyString => ""
  | String c rest => String (toUpperCase c) rest
  end.

Record NavLink := { id : string; label : string }.

(** [SECTION_IDS.map((id) => ({ id, label: ... }))] *)
Definition navLinks : list NavLink :=
  map (fun id => {| id := id; label := capitalize id |}) SECTION_IDS.

(** The [<a>] rendered for one link. *)
Record Anchor := { href : string; text : string; isActive : bool }.

(** [navLinks.map(({ id, label }) => { const isActive = active === id; ... })] *)
Definition anchors (active : string) : list Anchor :=
  map (fun l => {| href := "#" +:+ id l; text := label l;
                   isActive := String.eqb active (id l) |}) navLinks.

End Nav.

(** ** Certificate tiles ([CERTS.map] in [Page]) *)

Module Certificates.
Import Config.

(** JavaScript truthiness of a [string | undefined]. *)
Definition truthy (x : option string) : bool :=
  match x with
  | Some s => negb (String.eqb s "")
  | None => false
  end.

(** [(c.issuer || c.year) && <p>{c.issuer ?? ""}{c.issuer && c.year ?
    " • " : ""}{c.year ?? ""}</p>]: the text of the paragraph, [None]
    when it is not rendered. *)
Definition subtitle (c : Cert) : option string :=
  if truthy (issuer c) || truthy (year c) then
    Some (default "" (issuer c)
          +:+ (if truthy (issuer c) && truthy (year c) then " • " else "")
          +:+ default "" (year c))
  else None.

(** One link of the row of actions. *)
Record Action := { caption : string; target : string }.

(** [c.image && <a href={`${BASE}${c.image}`}>View Image</a>], then the
    same for [c.file] (Download PDF) and [c.verify] (Verify, no [BASE]). *)
Definition actions (base : string) (c : Cert) : list Action :=
  (if truthy (image c)
   then [ {| caption := "View Image"; target := base +:+ default "" (image c) |} ]
   else []) ++
  (if truthy (file c)
   then [ {| caption := "Download PDF"; target := base +:+ default "" (file c) |} ]
   else []) ++
  (if truthy (verify c)
   then [ {| caption := "Verify"; target := default "" (verify c) |} ]
   else []).

(** [c.image && <a href={`${BASE}${c.image}`}><Image src=... /></a>],
    the preview above the title: its [src], [None] when not rendered. *)
Definition preview (base : string) (c : Cert) : option string :=
  if truthy (image c) then Some (base +:+ default "" (image c)) else None.

End Certificates.

(** ** What [Page] renders of the contact state *)

Module PageView.
Import Contact Page.

(** [<button disabled={sending}>{sending ? "Sending…" : "Submit"}</button>] *)
Record SubmitButton := { disabled : bool; caption : string }.

Definition submitButton (s : PageState) : SubmitButton :=
  {| disabled := sending s;
     caption := if sending s then "Sending…" else "Submit" |}.

End PageView.

(** ** Sample inputs *)

Module Samples.
Import Scroll Contact.

(** Tops of the seven sections in an unscrolled document 5000px high. *)
Definition layout : gmap string Q :=
  list_to_map
    [ ("about", 600%Q); ("projects", 1400%Q); ("certificates", 2100%Q);
      ("skills", 2800%Q); ("experience", 3500%Q); ("education", 4200%Q);
      ("contact", 4700%Q) ].

(** The browser scrolled to [y]: an 800px viewport, a 60px header. *)
Definition dom_at (y : Q) : Dom :=
  {| scrollY := y; innerHeight := 800%Q; scrollHeight := 5000%Q;
     headerHeight := Some 60%Q;
     elementTop := fun id => (fun top => (top - y)%Q) <$> layout !! id |}.

(** Offsets as recorded on mount in that document. *)
Definition offsets_recorded : gmap string Q := computeOffsets (dom_at 0%Q).

(** The same record without an entry for "projects". *)
Definition offsets_partial : gmap string Q := delete "projects" offsets_recorded.

Definition visitor_form : FormFields :=
  {| input_gotcha := ""; input_name := "Ada"; input_email := "ada@example.org";
     textarea_message := "Hello" |}.

Definition invalid_email : Response :=
  {| status := 422;
     json := Some {| errors := Some [ {| message := Some "Invalid email";
                                         field := Some "email";
                                         code := Some "TYPE_EMAIL" |} ] |} |}.

Definition two_messages : list FormspreeError :=
  [ {| message := Some "Invalid email"; field := Some "email"; code := None |};
    {| message := Some "Name is required"; field := Some "name"; code := None |} ].

Definition two_errors : Response :=
  {| status := 422; json := Some {| errors := Some two_messages |} |}.

Definition no_messages : Response :=
  {| status := 400;
     json := Some {| errors := Some [ {| message := None; field := Some "email";
                                         code := Some "TYPE_EMAIL" |} ] |} |}.

End Samples.

(** * Properties *)

(** ** Rounding to binary64 *)

Section Rounding.
Import JsNumber.
#[local] Open Scope Q_scope.

Lemma pow2_pos k : 0 < pow2 k.
Proof. apply Qpower_0_lt. reflexivity. Qed.

Lemma pow2_plus a b : pow2 (a + b) == pow2 a * pow2 b.
Proof. apply Qpower_plus. discriminate. Qed.

Lemma pow2_le a b : (a <= b)%Z -> pow2 a <= pow2 b.
Proof. intros H. apply Qpower_le_compat_l; [exact H | discriminate]. Qed.

Lemma pow2_lt_inv a b : pow2 a < pow2 b -> (a < b)%Z.
Proof. intros H. apply (Qpower_lt_compat_l_inv 2); [exact H | reflexivity]. Qed.

Lemma pow2_Z n : (0 <= n)%Z -> pow2 n == inject_Z (2 ^ n).
Proof. intros H. unfold pow2. now rewrite Zpower_Qpower. Qed.

Lemma pow2_cancel k : pow2 (- k) * pow2 k == 1.
Proof. rewrite <- pow2_plus. now replace (- k + k)%Z with 0%Z by lia. Qed.

Lemma inject_Z_pos z : (0 < z)%Z -> 0 < inject_Z z.
Proof. intros H. change 0 with (inject_Z 0). now rewrite <- Zlt_Qlt. Qed.

Lemma Zdiv_le_cross A B N D :
  (0 < B)%Z -> (0 < D)%Z -> (A * D <= N * B)%Z ->
  inject_Z A / inject_Z B <= inject_Z N / inject_Z D.
Proof.
  intros HB HD H.
  apply Qle_shift_div_l; [now apply inject_Z_pos|].
  unfold Qdiv. rewrite <- Qmult_assoc, (Qmult_comm (/ _)), Qmult_assoc.
  apply Qle_shift_div_r; [now apply inject_Z_pos|].
  rewrite <- !inject_Z_mult, <- Zle_Qle. exact H.
Qed.

Lemma Zdiv_lt_cross A B N D :
  (0 < B)%Z -> (0 < D)%Z -> (A * D < N * B)%Z ->
  inject_Z A / inject_Z B < inject_Z N / inject_Z D.
Proof.
  intros HB HD H.
  apply Qlt_shift_div_l; [now apply inject_Z_pos|].
  unfold Qdiv. rewrite <- Qmult_assoc, (Qmult_comm (/ _)), Qmult_assoc.
  apply Qlt_shift_div_r; [now apply inject_Z_pos|].
  rewrite <- !inject_Z_mult, <- Zlt_Qlt. exact H.
Qed.

Lemma pow2_frac a b :
  (0 <= a)%Z -> (0 <= b)%Z -> pow2 (a - b) == inject_Z (2 ^ a) / inject_Z (2 ^ b).
Proof.
  intros Ha Hb. replace (a - b)%Z with (a + - b)%Z by lia.
  rewrite pow2_plus. unfold pow2 at 2. rewrite Qpower_opp. fold (pow2 b).
  rewrite (pow2_Z a Ha), (pow2_Z b Hb). reflexivity.
Qed.

(** A positive rational lies between the powers of two its exponent names. *)
Lemma exponent_spec q :
  0 < q -> pow2 (exponent q) <= q /\ q < pow2 (exponent q + 1).
Proof.
  intros Hq. destruct q as [n d]. unfold exponent. cbn [Qnum Qden].
  assert (Hn : (0 < n)%Z).
  { unfold Qlt in Hq. simpl in Hq. lia. }
  set (ln := Z.log2 n). set (ld := Z.log2 (Zpos d)).
  destruct (Z.log2_spec n Hn) as [Hn1 Hn2]. fold ln in Hn1, Hn2.
  destruct (Z.log2_spec (Zpos d) eq_refl) as [Hd1 Hd2]. fold ld in Hd1, Hd2.
  assert (Hln : (0 <= ln)%Z) by apply Z.log2_nonneg.
  assert (Hld : (0 <= ld)%Z) by apply Z.log2_nonneg.
  replace (Z.succ ld) with (ld + 1)%Z in Hd2 by lia.
  replace (Z.succ ln) with (ln + 1)%Z in Hn2 by lia.
  assert (Hpn : (0 < 2 ^ ln)%Z) by (apply Z.pow_pos_nonneg; lia).
  assert (Hpd : (0 < 2 ^ ld)%Z) by (apply Z.pow_pos_nonneg; lia).
  assert (Hpd1 : (0 < 2 ^ (ld + 1))%Z) by (apply Z.pow_pos_nonneg; lia).
  assert (Hq' : n # d == inject_Z n / inject_Z (Zpos d)) by apply Qmake_Qdiv.
  assert (Hlow : pow2 (ln - ld - 1) <= n # d).
  { replace (ln - ld - 1)%Z with (ln - (ld + 1))%Z by lia.
    rewrite pow2_frac by lia. rewrite Hq'.
    apply Zdiv_le_cross; [exact Hpd1 | reflexivity | nia]. }
  assert (Hhigh : n # d < pow2 (ln - ld + 1)).
  { replace (ln - ld + 1)%Z with ((ln + 1) - ld)%Z by lia.
    rewrite pow2_frac by lia. rewrite Hq'.
    apply Zdiv_lt_cross; [reflexivity | exact Hpd | nia]. }
  destruct (Qle_bool (pow2 (ln - ld)) (n # d)) eqn:Hb.
  - apply Qle_bool_iff in Hb. split; [exact Hb | exact Hhigh].
  - split; [exact Hlow|].
    replace (ln - ld - 1 + 1)%Z with (ln - ld)%Z by lia.
    apply Qnot_le_lt. intros H. apply Qle_bool_iff in H. congruence.
Qed.

Lemma exponent_mono x y : 0 < x -> x <= y -> (exponent x <= exponent y)%Z.
Proof.
  intros Hx Hxy.
  destruct (exponent_spec x Hx) as [Hx1 _].
  destruct (exponent_spec y) as [_ Hy2]; [lra|].
  assert (H : pow2 (exponent x) < pow2 (exponent y + 1)) by lra.
  apply pow2_lt_inv in H. lia.
Qed.

Lemma roundHalfEven_floor x :
  (Qfloor x <= roundHalfEven x <= Qfloor x + 1)%Z.
Proof.
  unfold roundHalfEven.
  destruct (Qcompare (x - inject_Z (Qfloor x)) (1 # 2)); [|lia|lia].
  destruct (Z.even (Qfloor x)); lia.
Qed.

Lemma roundHalfEven_ge n x : inject_Z n <= x -> (n <= roundHalfEven x)%Z.
Proof.
  intros H. apply Qfloor_resp_le in H. rewrite Qfloor_Z in H.
  pose proof (roundHalfEven_floor x). lia.
Qed.

Lemma roundHalfEven_le n x : x <= inject_Z n -> (roundHalfEven x <= n)%Z.
Proof.
  intros H. pose proof (roundHalfEven_floor x) as Hf.
  destruct (Z.lt_ge_cases (Qfloor x) n) as [Hlt | Hge]; [lia|].
  assert (Hx : x == inject_Z n).
  { apply Qle_antisym; [exact H|].
    apply Qle_trans with (inject_Z (Qfloor x)); [now rewrite <- Zle_Qle | apply Qfloor_le]. }
  assert (Hfl : Qfloor x = n) by (rewrite (Qfloor_comp _ _ Hx); apply Qfloor_Z).
  unfold roundHalfEven. rewrite Hfl.
  assert (Hc : Qcompare (x - inject_Z n) (1 # 2) = Lt).
  { apply Qlt_alt. rewrite Hx. unfold Qminus. rewrite Qplus_opp_r. reflexivity. }
  rewrite Hc. lia.
Qed.

Lemma roundHalfEven_mono x y : x <= y -> (roundHalfEven x <= roundHalfEven y)%Z.
Proof.
  intros Hxy. pose proof (Qfloor_resp_le _ _ Hxy) as Hf.
  pose proof (roundHalfEven_floor x) as Hx.
  pose proof (roundHalfEven_floor y) as Hy.
  destruct (Z.eq_dec (Qfloor x) (Qfloor y)) as [Heq | Hne]; [|lia].
  clear Hx Hy Hf. unfold roundHalfEven. rewrite <- Heq. clear Heq.
  remember (Qfloor x) as f eqn:Ef. remember (inject_Z f) as c eqn:Ec.
  remember (Z.even f) as ev eqn:Eev. clear Ef Ec Eev.
  destruct (Qcompare (x - c) (1 # 2)) eqn:Hcx;
    destruct (Qcompare (y - c) (1 # 2)) eqn:Hcy;
    try (destruct ev; lia); try lia.
  - apply Qeq_alt in Hcx. apply Qlt_alt in Hcy. exfalso. lra.
  - apply Qgt_alt in Hcx. apply Qeq_alt in Hcy. exfalso. lra.
  - apply Qgt_alt in Hcx. apply Qlt_alt in Hcy. exfalso. lra.
Qed.

Lemma scaled_le q k n :
  q <= inject_Z n * pow2 k -> q * pow2 (- k) <= inject_Z n.
Proof.
  intros H. apply Qmult_le_r with (z := pow2 k); [apply pow2_pos|].
  rewrite <- Qmult_assoc, pow2_cancel. lra.
Qed.

Lemma scaled_ge q k n :
  inject_Z n * pow2 k <= q -> inject_Z n <= q * pow2 (- k).
Proof.
  intros H. apply Qmult_le_r with (z := pow2 k); [apply pow2_pos|].
  rewrite <- Qmult_assoc, pow2_cancel. lra.
Qed.

Lemma roundPos_nonneg q : 0 < q -> 0 <= roundPos q.
Proof.
  intros Hq. unfold roundPos.
  apply Qmult_le_0_compat; [|apply Qlt_le_weak, pow2_pos].
  change 0 with (inject_Z 0). rewrite <- Zle_Qle.
  apply roundHalfEven_ge. apply scaled_ge.
  change (inject_Z 0) with 0. rewrite Qmult_0_l. lra.
Qed.

(** Within one binade the rounded mantissas are ordered; from one
    binade to a higher one, the power of two between them separates the
    results. *)
Lemma roundPos_mono x y : 0 < x -> x <= y -> roundPos x <= roundPos y.
Proof.
  intros Hx Hxy. assert (Hy : 0 < y) by lra.
  unfold roundPos.
  pose proof (exponent_mono x y Hx Hxy) as He.
  destruct (exponent_spec x Hx) as [_ Hx2].
  destruct (exponent_spec y Hy) as [Hy1 _].
  set (kx := ulpExponent x). set (ky := ulpExponent y).
  assert (Hk : (kx <= ky)%Z) by (unfold kx, ky, ulpExponent; lia).
  destruct (Z.eq_dec kx ky) as [Heq | Hne].
  - rewrite <- Heq. apply Qmult_le_compat_r; [|apply Qlt_le_weak, pow2_pos].
    rewrite <- Zle_Qle. apply roundHalfEven_mono.
    apply Qmult_le_compat_r; [exact Hxy | apply Qlt_le_weak, pow2_pos].
  - apply Qle_trans with (pow2 (kx + 53)).
    + rewrite pow2_plus, (Qmult_comm (pow2 kx)).
      apply Qmult_le_compat_r; [|apply Qlt_le_weak, pow2_pos].
      rewrite (pow2_Z 53) by lia. rewrite <- Zle_Qle.
      apply roundHalfEven_le. apply scaled_le.
      rewrite <- (pow2_Z 53) by lia. rewrite <- pow2_plus.
      apply Qle_trans with (pow2 (exponent x + 1)); [lra|].
      apply pow2_le. unfold kx, ulpExponent. lia.
    + apply Qle_trans with (pow2 (ky + 52)); [apply pow2_le; lia|].
      rewrite pow2_plus, (Qmult_comm (pow2 ky)).
      apply Qmult_le_compat_r; [|apply Qlt_le_weak, pow2_pos].
      rewrite (pow2_Z 52) by lia. rewrite <- Zle_Qle.
      apply roundHalfEven_ge. apply scaled_ge.
      rewrite <- (pow2_Z 52) by lia. rewrite <- pow2_plus.
      apply Qle_trans with (pow2 (exponent y)); [|exact Hy1].
      apply pow2_le. unfold kx, ky, ulpExponent in *. lia.
Qed.

(** Rounding never reverses the order of two numbers. *)
Lemma binary64_mono x y : x <= y -> binary64 x <= binary64 y.
Proof.
  intros Hxy. unfold binary64.
  destruct (Qcompare_spec x 0) as [Hx | Hx | Hx];
    destruct (Qcompare_spec y 0) as [Hy | Hy | Hy];
    try (exfalso; lra).
  - lra.
  - now apply roundPos_nonneg.
  - pose proof (roundPos_nonneg (- x)). lra.
  - pose proof (roundPos_mono (- y) (- x)). lra.
  - pose proof (roundPos_nonneg (- x)). pose proof (roundPos_nonneg y). lra.
  - now apply roundPos_mono.
Qed.

Lemma jsAdd_mono x x' y : x <= x' -> jsAdd x y <= jsAdd x' y.
Proof. intros H. apply binary64_mono. lra. Qed.

(** The sums and the ceiling below are those of IEEE 754 doubles: the
    decimal literals are first rounded, as the JavaScript parser does. *)
Example jsAdd_header_sum :
  jsAdd (jsAdd (binary64 (13498 # 10)) (binary64 (402 # 10))) 10 == 1400.
Proof. vm_compute. reflexivity. Qed.

Example jsAdd_tenth_and_fifth :
  jsAdd (binary64 (1 # 10)) (binary64 (2 # 10)) ==
  5404319552844596 # 18014398509481984.
Proof. vm_compute. reflexivity. Qed.

Example jsAdd_rounds_before_ceiling :
  Qceiling (jsAdd (3398 + pow2 (-41)) 800) = 4198%Z /\
  Qceiling (3398 + pow2 (-41) + 800) = 4199%Z.
Proof. split; vm_compute; reflexivity. Qed.

End Rounding.

(** ** The scroll handler *)

Section ScrollLoop.
Import Scroll.
Variable offs : gmap string Q.
Variable y : Q.

Lemma last_cons_default (id d : string) (l : list string) :
  default d (last (id :: l)) = default id (last l).
Proof.
  revert id d. induction l as [|id' l IH]; intros id d; [reflexivity|].
  rewrite last_cons_cons. now rewrite !IH.
Qed.

Lemma sectionLoop_stop ids current :
  (forall id, head ids = Some id -> reached offs y id = false) ->
  sectionLoop offs y ids current = current.
Proof.
  destruct ids as [|id rest]; simpl; intros Hstop; [reflexivity|].
  now rewrite (Hstop id eq_refl).
Qed.

Lemma sectionLoop_run run rest current :
  Forall (fun id => reached offs y id = true) run ->
  sectionLoop offs y (run ++ rest) current =
  sectionLoop offs y rest (default current (last run)).
Proof.
  intros Hrun. revert current.
  induction Hrun as [|id run Hid _ IH]; intros current; simpl; [reflexivity|].
  rewrite Hid, IH. now rewrite last_cons_default.
Qed.

(** The loop returns the end of the longest initial run of reached
    identifiers, or the value it started from when that run is empty. *)
Lemma sectionLoop_split ids current :
  exists run rest,
    ids = run ++ rest /\
    Forall (fun id => reached offs y id = true) run /\
    (forall id, head rest = Some id -> reached offs y id = false) /\
    sectionLoop offs y ids current = default current (last run).
Proof.
  revert current. induction ids as [|id ids IH]; intros current.
  - exists [], []. repeat split; [constructor | discriminate].
  - simpl. destruct (reached offs y id) eqn:Hid.
    + destruct (IH id) as (run & rest & -> & Hrun & Hrest & Heq).
      exists (id :: run), rest. repeat split; [now constructor | exact Hrest |].
      rewrite Heq. now rewrite last_cons_default.
    + exists [], (id :: ids). repeat split; [constructor |].
      simpl. intros id' [= <-]. exact Hid.
Qed.

Lemma sectionLoop_elem ids current :
  sectionLoop offs y ids current = current \/
  sectionLoop offs y ids current ∈ ids.
Proof.
  revert current. induction ids as [|id ids IH]; intros current; simpl.
  - now left.
  - destruct (reached offs y id); [|now left].
    right. destruct (IH id) as [-> | Hin]; [left | now right].
Qed.

Lemma sectionLoop_reads_prefix ids :
  sectionLoop_reads offs y ids `prefix_of` ids.
Proof.
  induction ids as [|id ids IH]; simpl; [reflexivity|].
  destruct (reached offs y id).
  - now apply prefix_cons.
  - apply prefix_cons. apply prefix_nil.
Qed.

End ScrollLoop.

Section ScrollLoopBetween.
Import Scroll.
Variable offs : gmap string Q.
Variable y : Q.

Lemma sectionLoop_between (ids : list string) i a current :
  ids !! i = Some a ->
  (forall j b, (j <= i)%nat -> ids !! j = Some b -> reached offs y b = true) ->
  (forall b, ids !! S i = Some b -> reached offs y b = false) ->
  sectionLoop offs y ids current = a.
Proof.
  revert i current. induction ids as [|id ids IH]; intros i current Ha Hle Hnext.
  - discriminate.
  - simpl. rewrite (Hle 0%nat id) by (simpl; done || lia).
    destruct i as [|i].
    + injection Ha as <-. apply sectionLoop_stop.
      intros b Hb. apply Hnext. simpl. now rewrite <- head_lookup.
    + apply (IH i); [exact Ha | |exact Hnext].
      intros j b Hj Hb. apply (Hle (S j)); [lia | exact Hb].
Qed.

Lemma reached_recorded id o :
  offs !! id = Some o -> (o <= y)%Q -> reached offs y id = true.
Proof. intros Ho Hoy. unfold reached. rewrite Ho. now apply Qle_bool_iff. Qed.

Lemma not_reached_above id :
  (forall o, offs !! id = Some o -> (y < o)%Q) -> reached offs y id = false.
Proof.
  intros Habove. unfold reached. destruct (offs !! id) as [o|]; [|reflexivity].
  apply not_true_is_false. intros Hle%Qle_bool_iff.
  specialize (Habove o eq_refl). lra.
Qed.

End ScrollLoopBetween.

Section RecordedOffsets.
Import JsNumber Scroll.

(** One pass of the [forEach] in [computeOffsets], from any object [m]. *)
Lemma recordOffsets_lookup (d : Dom) (ids : list string) (m : gmap string Q)
      (id : string) :
  foldl (fun m id =>
           match elementTop d id with
           | Some top => <[id := jsAdd top (scrollY d)]> m
           | None => m
           end) m ids !! id =
  if decide (id ∈ ids) then
    match elementTop d id with
    | Some top => Some (jsAdd top (scrollY d))
    | None => m !! id
    end
  else m !! id.
Proof.
  revert m. induction ids as [|id' ids IH]; intros m.
  - cbn [foldl]. rewrite decide_False by apply not_elem_of_nil. reflexivity.
  - cbn [foldl]. rewrite IH.
    destruct (decide (id = id')) as [<- | Hne].
    + rewrite (decide_True (P := id ∈ id :: ids)) by apply list_elem_of_here.
      destruct (elementTop d id) as [top|]; [|now destruct (decide (id ∈ ids))].
      rewrite lookup_insert_eq. now destruct (decide (id ∈ ids)).
    + assert (Hm : forall m' : gmap string Q,
                 match elementTop d id' with
                 | Some top => <[id' := jsAdd top (scrollY d)]> m'
                 | None => m'
                 end !! id = m' !! id).
      { intros m'. destruct (elementTop d id'); [|reflexivity].
        now rewrite lookup_insert_ne by congruence. }
      rewrite Hm.
      destruct (decide (id ∈ ids)) as [Hin | Hnin].
      * rewrite decide_True by now apply list_elem_of_further. reflexivity.
      * rewrite decide_False; [reflexivity|].
        intros [Heq | Hin]%elem_of_cons; [congruence | contradiction].
Qed.

Lemma computeOffsets_entry (d : Dom) (id : string) :
  computeOffsets d !! id =
  if decide (id ∈ SECTION_IDS)
  then (fun top => jsAdd top (scrollY d)) <$> elementTop d id
  else None.
Proof.
  unfold computeOffsets. rewrite recordOffsets_lookup, lookup_empty.
  destruct (decide (id ∈ SECTION_IDS)); [|reflexivity].
  now destruct (elementTop d id).
Qed.

Lemma tops_in_order (d : Dom) :
  laid_out_in_order d ->
  forall j i a b ta tb,
    (i <= j)%nat -> declared_at i a -> declared_at j b ->
    elementTop d a = Some ta -> elementTop d b = Some tb -> (ta <= tb)%Q.
Proof.
  intros [Hall Hadj]. induction j as [|j IH]; intros i a b ta tb Hij Ha Hb Hta Htb.
  - assert (i = 0%nat) as -> by lia. unfold declared_at in *.
    rewrite Ha in Hb. injection Hb as <-. rewrite Hta in Htb.
    injection Htb as <-. apply Qle_refl.
  - destruct (decide (i = S j)) as [-> | Hne].
    + unfold declared_at in *. rewrite Ha in Hb. injection Hb as <-.
      rewrite Hta in Htb. injection Htb as <-. apply Qle_refl.
    + assert (Hc : is_Some (SECTION_IDS !! j)).
      { apply lookup_lt_is_Some. apply lookup_lt_Some in Hb. lia. }
      destruct Hc as [c Hc].
      destruct (Hall c) as [tc Htc]; [now apply list_elem_of_lookup_2 in Hc|].
      apply Qle_trans with tc.
      * apply (IH i a c); [lia | exact Ha | exact Hc | exact Hta | exact Htc].
      * apply (Hadj j c b); assumption.
Qed.

(** The offsets recorded from a document laid out in order hold an
    entry for every section, and are in declared order too. *)
Lemma offsets_in_order (d : Dom) i j a b :
  laid_out_in_order d -> (i <= j)%nat -> declared_at i a -> declared_at j b ->
  exists oa ob, computeOffsets d !! a = Some oa /\
                computeOffsets d !! b = Some ob /\ (oa <= ob)%Q.
Proof.
  intros Hlay Hij Ha Hb.
  assert (Hina : a ∈ SECTION_IDS) by now apply list_elem_of_lookup_2 in Ha.
  assert (Hinb : b ∈ SECTION_IDS) by now apply list_elem_of_lookup_2 in Hb.
  destruct (proj1 Hlay a Hina) as [ta Hta].
  destruct (proj1 Hlay b Hinb) as [tb Htb].
  exists (jsAdd ta (scrollY d)), (jsAdd tb (scrollY d)).
  rewrite !computeOffsets_entry, !decide_True, Hta, Htb by assumption.
  split; [reflexivity|]. split; [reflexivity|].
  apply jsAdd_mono. now apply (tops_in_order d Hlay j i a b).
Qed.

Lemma reached_earlier (d : Dom) (y : Q) i j a b :
  laid_out_in_order d -> (i <= j)%nat -> declared_at i a -> declared_at j b ->
  reached (computeOffsets d) y b = true -> reached (computeOffsets d) y a = true.
Proof.
  intros Hlay Hij Ha Hb.
  destruct (offsets_in_order d i j a b Hlay Hij Ha Hb) as (oa & ob & Hoa & Hob & Hle).
  unfold reached. rewrite Hoa, Hob, !Qle_bool_iff. intros Hy. lra.
Qed.

(** The loop returns the end of a prefix of the identifiers, every one
    of which is reached, and the identifier after that prefix is not. *)
Lemma sectionLoop_take_stop offs y ids current :
  exists n, (n <= length ids)%nat /\
    Forall (fun id => reached offs y id = true) (take n ids) /\
    (forall id, ids !! n = Some id -> reached offs y id = false) /\
    sectionLoop offs y ids current = default current (last (take n ids)).
Proof.
  destruct (sectionLoop_split offs y ids current)
    as (run & rest & -> & Hrun & Hstop & Heq).
  exists (length run). rewrite take_app_length.
  split; [rewrite length_app; lia|]. split; [exact Hrun|]. split; [|exact Heq].
  intros id Hid. apply Hstop.
  rewrite lookup_app_r, Nat.sub_diag in Hid by lia. now rewrite head_lookup.
Qed.

Lemma declared_prefix_end (n : nat) :
  (n <= length SECTION_IDS)%nat ->
  declared_at (pred n) (default "about" (last (take n SECTION_IDS))).
Proof.
  intros Hn. do 8 (destruct n as [|n]; [reflexivity|]). simpl in Hn. lia.
Qed.

End RecordedOffsets.

Section ScrollHandler.
Import JsNumber Scroll Samples.

Lemma atBottom_spec d :
  atBottom d = true <->
  (jsSub (scrollHeight d) 2 <=
   inject_Z (Qceiling (jsAdd (scrollY d) (innerHeight d))))%Q.
Proof. unfold atBottom. apply Qle_bool_iff. Qed.

Lemma onScroll_declared offs d : onScroll offs d ∈ SECTION_IDS.
Proof.
  unfold onScroll. destruct (atBottom d).
  - unfold SECTION_IDS. set_solver.
  - destruct (sectionLoop_elem offs (scrollPos d) SECTION_IDS "about") as [-> | Hin].
    + unfold SECTION_IDS. set_solver.
    + exact Hin.
Qed.

(** The sample document at rest holds its sections in declared order. *)
Lemma dom_at_rest_laid_out : laid_out_in_order (dom_at 0%Q).
Proof.
  split.
  - intros id Hin. unfold SECTION_IDS in Hin.
    repeat (apply elem_of_cons in Hin as [-> | Hin]; [now eexists|]).
    now apply elem_of_nil in Hin.
  - intros i a b ta tb Ha Hb Hta Htb. unfold declared_at in Ha, Hb.
    do 6 (destruct i as [|i];
          [injection Ha as <-; injection Hb as <-;
           vm_compute in Hta, Htb; injection Hta as <-; injection Htb as <-;
           vm_compute; discriminate|]).
    destruct i; discriminate.
Qed.

(** C1, as amended. The offsets are those the page records from its
    document, the seven sections laid out in declared order. On a scroll
    event the handler takes [y = scrollY + headerH + 10], the sums
    rounded as JavaScript rounds them and [headerH] being 0 when the page
    has no header. Away from the bottom of the document it hands
    [setActive] the last section, in declared order, whose recorded
    offset is at most [y], and "about" when no recorded offset is at most
    [y]. Hence for a [y] at or above the recorded offset of a section
    and below that of the next one, the active section is that section. *)
Theorem onScroll_active_section (d0 d : Dom) :
  laid_out_in_order d0 -> atBottom d = false ->
  (headerHeight d = None ->
   scrollPos d = jsAdd (jsAdd (scrollY d) 0) 10) /\
  (forall h, headerHeight d = Some h ->
   scrollPos d = jsAdd (jsAdd (scrollY d) h) 10) /\
  ((exists a o, computeOffsets d0 !! a = Some o /\ (o <= scrollPos d)%Q) ->
   last_reached (computeOffsets d0) (scrollPos d)
                (onScroll (computeOffsets d0) d)) /\
  ((forall a o, computeOffsets d0 !! a = Some o -> (scrollPos d < o)%Q) ->
   onScroll (computeOffsets d0) d = "about") /\
  (forall i a o,
      declared_at i a -> computeOffsets d0 !! a = Some o ->
      (o <= scrollPos d)%Q ->
      (forall b o', declared_at (S i) b -> computeOffsets d0 !! b = Some o' ->
                    (scrollPos d < o')%Q) ->
      onScroll (computeOffsets d0) d = a).
Proof.
  intros Hlay Hnb.
  split; [intros Hh; unfold scrollPos, headerH; now rewrite Hh|].
  split; [intros h Hh; unfold scrollPos, headerH; now rewrite Hh|].
  unfold onScroll. rewrite Hnb.
  set (offs := computeOffsets d0). set (y := scrollPos d).
  split; [|split].
  - intros (a & o & Ho & Hoy).
    assert (Hra : reached offs y a = true) by now apply (reached_recorded offs y a o).
    assert (Hina : a ∈ SECTION_IDS).
    { unfold offs in Ho. rewrite computeOffsets_entry in Ho.
      now destruct (decide (a ∈ SECTION_IDS)). }
    apply list_elem_of_lookup_1 in Hina as [i Hi].
    assert (Habout : reached offs y "about" = true).
    { apply (reached_earlier d0 y 0 i "about" a Hlay); [lia | reflexivity | exact Hi | exact Hra]. }
    destruct (sectionLoop_take_stop offs y SECTION_IDS "about")
      as (n & Hn & Hrun & Hstop & ->).
    assert (Hn0 : n <> 0%nat).
    { intros ->. specialize (Hstop "about" eq_refl). congruence. }
    exists (pred n). split; [now apply declared_prefix_end|]. split.
    + rewrite Forall_lookup in Hrun. apply (Hrun (pred n)).
      rewrite lookup_take_lt by lia. now apply declared_prefix_end.
    + intros j b Hj Hb. apply not_true_is_false. intros Hrb.
      assert (Hc : is_Some (SECTION_IDS !! n)).
      { apply lookup_lt_is_Some. apply lookup_lt_Some in Hb. lia. }
      destruct Hc as [c Hc]. specialize (Hstop c Hc).
      assert (reached offs y c = true); [|congruence].
      apply (reached_earlier d0 y n j c b Hlay); [lia | exact Hc | exact Hb | exact Hrb].
  - intros Hnone. apply sectionLoop_stop. intros id _.
    apply not_reached_above. exact (Hnone id).
  - intros i a o Ha Ho Hoy Hnext.
    apply (sectionLoop_between offs y SECTION_IDS i a); [exact Ha | |].
    + intros j b Hj Hb.
      destruct (offsets_in_order d0 j i b a Hlay Hj Hb Ha) as (ob & oa & Hob & Hoa & Hle).
      fold offs in Hob, Hoa. rewrite Ho in Hoa. injection Hoa as <-.
      apply (reached_recorded offs y b ob Hob). lra.
    + intros b Hb. apply not_reached_above. intros o' Ho'.
      now apply (Hnext b o').
Qed.

Lemma onScroll_active_section_witness :
  onScroll offsets_recorded (dom_at 1400%Q) = "projects".
Proof.
  assert (Hnb : atBottom (dom_at 1400%Q) = false) by (vm_compute; reflexivity).
  destruct (onScroll_active_section (dom_at 0%Q) (dom_at 1400%Q)
              dom_at_rest_laid_out Hnb) as (_ & _ & _ & _ & Hbetween).
  eapply (Hbetween 1%nat "projects").
  - reflexivity.
  - vm_compute. reflexivity.
  - vm_compute. discriminate.
  - intros b o' Hb Ho'. injection Hb as <-.
    vm_compute in Ho'. injection Ho' as <-. vm_compute. reflexivity.
Defined.

(** C1 as stated fails. At the top of the page, with the offsets the
    page records, no section has its offset at or below [y]: [y] is 70
    and the first offset is 600. The handler still makes "about" active,
    which is not a section whose recorded offset is at most [y]. *)
Lemma onScroll_last_reached_counterexample :
  laid_out_in_order (dom_at 0%Q) /\
  atBottom (dom_at 0%Q) = false /\
  (scrollPos (dom_at 0%Q) == 70)%Q /\
  (exists o, offsets_recorded !! "about" = Some o /\ (o == 600)%Q) /\
  onScroll offsets_recorded (dom_at 0%Q) = "about" /\
  ~ last_reached offsets_recorded (scrollPos (dom_at 0%Q))
      (onScroll offsets_recorded (dom_at 0%Q)).
Proof.
  split; [exact dom_at_rest_laid_out|].
  split; [vm_compute; reflexivity|].
  split; [vm_compute; reflexivity|].
  split; [eexists; split; [vm_compute; reflexivity | vm_compute; reflexivity]|].
  split; [vm_compute; reflexivity|].
  intros (i & _ & Hreached & _). vm_compute in Hreached. discriminate.
Qed.

(** C2. When [Math.ceil(scrollY + innerHeight) >= scrollHeight - 2],
    the sum and the difference rounded as JavaScript rounds them, the
    handler hands [setActive] the last declared identifier, "contact",
    and reads and compares no recorded offset, whatever the record holds. *)
Theorem onScroll_at_bottom (offs : gmap string Q) (d : Dom) :
  (jsSub (scrollHeight d) 2 <=
   inject_Z (Qceiling (jsAdd (scrollY d) (innerHeight d))))%Q ->
  onScroll offs d = "contact" /\
  last SECTION_IDS = Some (onScroll offs d) /\
  onScroll_reads offs d = [].
Proof.
  intros Hb%atBottom_spec. unfold onScroll, onScroll_reads. rewrite Hb.
  repeat split.
Qed.

Lemma onScroll_at_bottom_witness :
  onScroll offsets_recorded (dom_at 4200%Q) = "contact" /\
  last SECTION_IDS = Some (onScroll offsets_recorded (dom_at 4200%Q)) /\
  onScroll_reads offsets_recorded (dom_at 4200%Q) = [].
Proof.
  apply (onScroll_at_bottom offsets_recorded (dom_at 4200%Q)).
  vm_compute. discriminate.
Defined.

(** The test rounds before it takes the ceiling: with [scrollY] a
    little above 3398 the rounded sum is 4198, below 4201 - 2, although
    the exact sum has ceiling 4199. *)
Example atBottom_rounds_first :
  atBottom {| scrollY := (3398 + pow2 (-41))%Q; innerHeight := 800%Q;
              scrollHeight := 4201%Q; headerHeight := None;
              elementTop := fun _ => None |} = false.
Proof. vm_compute. reflexivity. Qed.

End ScrollHandler.

(** ** The page as a state machine *)

Section PageInvariants.
Import Scroll Contact Page Samples.

Lemma active_applyEffect s e : active (applyEffect s e) = active s.
Proof. now destruct e. Qed.

Lemma active_run es s : active (run es s) = active s.
Proof.
  unfold run. revert s. induction es as [|e es IH]; intros s; simpl; [reflexivity|].
  now rewrite IH, active_applyEffect.
Qed.

(** C4. In every reachable state of the page, [active] is one of the
    seven identifiers of [SECTION_IDS]: the initial value, the value
    forced at the bottom of the document and every value the loop can
    produce are among them, and no other event assigns [active]. *)
Theorem active_is_declared (s : PageState) :
  reachable s -> active s ∈ SECTION_IDS.
Proof.
  induction 1 as [|s ev _ IH].
  - unfold SECTION_IDS. set_solver.
  - destruct ev as [d|d|d|d|f| |r| ]; simpl.
    + apply onScroll_declared.
    + destruct (listening s); [apply onScroll_declared | exact IH].
    + destruct (listening s); exact IH.
    + destruct (listening s); exact IH.
    + exact IH.
    + now rewrite active_run.
    + destruct (inflight s); [exact IH|]. now rewrite active_run.
    + destruct (timers s) as [|[[] ?] ?]; exact IH.
Qed.

Lemma active_is_declared_witness :
  active (step (step initial (Mount (dom_at 0%Q))) (ScrollEv (dom_at 1400%Q)))
    ∈ SECTION_IDS.
Proof.
  apply active_is_declared.
  apply reach_step. apply reach_step. apply reach_initial.
Defined.

(** The flag [sending] is set exactly while one request is in flight,
    and there is never more than one. *)
Lemma sending_tracks_inflight (s : PageState) :
  reachable s ->
  (sending s = true /\ exists data, inflight s = [data]) \/
  (sending s = false /\ inflight s = []).
Proof.
  induction 1 as [|s ev _ IH].
  - now right.
  - destruct ev as [d|d|d|d|f| |r| ]; simpl.
    + exact IH.
    + destruct (listening s); exact IH.
    + destruct (listening s); exact IH.
    + destruct (listening s); exact IH.
    + exact IH.
    + destruct IH as [[Hs Hin] | [Hs Hin]]; rewrite Hs; simpl.
      * left. now split.
      * left. split; [reflexivity|]. rewrite Hin. now eexists.
    + destruct IH as [[Hs [data Hin]] | [Hs Hin]]; rewrite Hin.
      * right. unfold handleContactSubmit_settled, tryCatch.
        destruct r as [res|]; [destruct (ok res)|]; now split.
      * now right.
    + destruct (timers s) as [|[[] ?] ?]; exact IH.
Qed.

Lemma settled_state (r : FetchResult) (s : PageState) :
  exists t,
    run (handleContactSubmit_settled r) s =
    setTimers (timers s ++ [(ClearToast, 4000%nat)])
      (setSending false
         (setToast (Some t)
            (match outcome r with Sent => setForm resetForm s | _ => s end))) /\
    match outcome r with
    | Sent => t = successToast
    | RemoteFailure =>
        exists res, r = Resolved res /\
                    t = {| kind := error; text := msg (parsedBody res) |}
    | TransportFailure => t = networkToast
    end.
Proof.
  unfold handleContactSubmit_settled, tryCatch, outcome.
  destruct r as [res|]; [destruct (ok res)|]; eexists; (split; [reflexivity|]);
    try reflexivity.
  now exists res.
Qed.

Lemma timeout_clears_toast (s : PageState) :
  timers s <> [] -> toast (step s Timeout) = None.
Proof.
  intros Hne. simpl.
  destruct (timers s) as [|[[] ms] rest]; [congruence | reflexivity].
Qed.

Lemma timeout_timers (s : PageState) :
  timers (step s Timeout) = tail (timers s).
Proof.
  simpl. destruct (timers s) as [|[[] ms] rest] eqn:Ht; [exact Ht | reflexivity].
Qed.

Lemma timeouts_timers (n : nat) (s : PageState) :
  timers (foldl step s (replicate n Timeout)) = drop n (timers s).
Proof.
  revert s. induction n as [|n IH]; intros s; [reflexivity|].
  cbn [replicate foldl]. rewrite IH, timeout_timers.
  destruct (timers s) as [|t ts]; [|reflexivity].
  simpl. apply drop_nil.
Qed.

(** Once every pending timeout has fired, no toast is shown. *)
Lemma timeouts_clear_toast (s : PageState) (n : nat) :
  length (timers s) = S n ->
  toast (foldl step s (replicate (S n) Timeout)) = None.
Proof.
  intros Hlen. rewrite replicate_S_end, foldl_app. cbn [foldl].
  apply timeout_clears_toast. rewrite timeouts_timers.
  intros Hnil. apply (f_equal length) in Hnil.
  rewrite length_drop in Hnil. simpl in Hnil. lia.
Qed.

End PageInvariants.

(** ** The contact form *)

Section ContactForm.
Import Scroll Contact Page Samples.

(** C3. While [sending] is set a further submit changes nothing: the
    handler issues no request and the state of the page (flag, toast,
    form fields, requests issued and in flight, timers) stays as it is.
    The flag is set before [fetch] is called, in the same run of the
    handler, exactly one request is then in flight, and the flag is
    cleared in the [finally] block, once that request has settled. *)
Theorem submit_ignored_while_sending (s : PageState) :
  reachable s -> sending s = true ->
  step s Submit = s /\
  Forall (fun e => isFetch e = false) (handleContactSubmit (sending s) (form s)) /\
  (exists data, inflight s = [data]) /\
  (forall f, handleContactSubmit false f =
             [PreventDefault; SetSending true; Fetch FORMSPREE_ENDPOINT (FormData f)]) /\
  (forall r, exists body,
      handleContactSubmit_settled r =
      body ++ [SetSending false; SetTimeout ClearToast 4000%nat] /\
      Forall (fun e => isSetSending e = false) body) /\
  (forall r, sending (step s (Settle r)) = false /\
             inflight (step s (Settle r)) = []).
Proof.
  intros Hreach Hs.
  destruct (sending_tracks_inflight s Hreach) as [[_ [data Hin]] | [Hs' _]];
    [|congruence].
  split; [simpl; rewrite Hs; reflexivity|].
  split; [rewrite Hs; repeat constructor|].
  split; [now exists data|].
  split; [reflexivity|].
  split.
  - intros r. exists (tryCatch r). split; [reflexivity|].
    destruct r as [res|]; simpl; [destruct (ok res)|]; repeat constructor.
  - intros r. simpl. rewrite Hin.
    destruct (settled_state r (setInflight [] s)) as (t & -> & _).
    split; [reflexivity|]. simpl. now destruct (outcome r).
Qed.

Lemma submit_ignored_while_sending_witness :
  let s := step (step initial (Input visitor_form)) Submit in
  sending s = true /\ sent s = [FormData visitor_form] /\ step s Submit = s.
Proof.
  intros s. split; [reflexivity|]. split; [reflexivity|].
  apply (submit_ignored_while_sending s).
  - apply reach_step. apply reach_step. apply reach_initial.
  - reflexivity.
Defined.

Lemma ok_2xx (res : Response) :
  ok res = true <-> (200 <= status res <= 299)%nat.
Proof.
  unfold ok. rewrite andb_true_iff, !Nat.leb_le. tauto.
Qed.

(** C5, as amended. When the request of a submission settles with a
    2xx response, [form.reset()] empties the honeypot, name, email and
    message fields and leaves the hidden subject field at its fixed
    value, the success notice is shown, and a timeout of 4000
    milliseconds is registered whose callback clears the notice: once
    the pending timeouts have fired no notice is left. *)
Theorem success_resets_form_and_notifies (s : PageState) (res : Response) :
  inflight s <> [] -> (200 <= status res <= 299)%nat ->
  let s' := step s (Settle (Resolved res)) in
  form s' = {| input_gotcha := ""; input_name := ""; input_email := "";
               textarea_message := "" |} /\
  FormData (form s') =
    [ ("_gotcha", ""); ("_subject", "New message from portfolio site");
      ("name", ""); ("email", ""); ("message", "") ] /\
  toast s' = Some {| kind := success;
                     text := "Message sent! I’ll get back to you soon." |} /\
  timers s' = timers s ++ [(ClearToast, 4000%nat)] /\
  toast (foldl step s' (replicate (length (timers s')) Timeout)) = None.
Proof.
  intros Hin Hok%ok_2xx s'.
  assert (Hs' : s' = setTimers (timers s ++ [(ClearToast, 4000%nat)])
                       (setSending false (setToast (Some successToast)
                          (setForm resetForm (setInflight (tail (inflight s)) s))))).
  { subst s'. simpl. destruct (inflight s) as [|data rest]; [congruence|].
    unfold handleContactSubmit_settled, tryCatch. now rewrite Hok. }
  assert (Ht : timers s' = timers s ++ [(ClearToast, 4000%nat)])
    by now rewrite Hs'.
  split; [now rewrite Hs'|]. split; [now rewrite Hs'|].
  split; [now rewrite Hs'|]. split; [exact Ht|].
  assert (Hlen : length (timers s') = S (length (timers s))).
  { rewrite Ht, length_app. simpl. lia. }
  rewrite Hlen. now apply timeouts_clear_toast.
Qed.

Lemma success_resets_form_and_notifies_witness :
  let s := step (step initial (Input visitor_form)) Submit in
  let s' := step s (Settle (Resolved {| status := 200; json := None |})) in
  form s' = resetForm /\
  FormData (form s') =
    [ ("_gotcha", ""); ("_subject", "New message from portfolio site");
      ("name", ""); ("email", ""); ("message", "") ] /\
  toast s' = Some successToast /\
  timers s' = [(ClearToast, 4000%nat)] /\ toast (step s' Timeout) = None.
Proof.
  intros s s'.
  destruct (success_resets_form_and_notifies s {| status := 200; json := None |})
    as (Hform & Hdata & Htoast & Htimers & Hclear).
  - simpl. discriminate.
  - simpl. lia.
  - repeat split; assumption.
Defined.

(** C5 as stated fails: after a successful submission the hidden
    subject field still holds "New message from portfolio site", so not
    every field of the form has been cleared. *)
Lemma success_keeps_subject_counterexample :
  let s := step (step initial (Input visitor_form)) Submit in
  let s' := step s (Settle (Resolved {| status := 200; json := None |})) in
  ok {| status := 200; json := None |} = true /\
  ("_subject", "New message from portfolio site") ∈ FormData (form s') /\
  ~ allFieldsEmpty (form s').
Proof.
  intros s s'. split; [reflexivity|]. split.
  - apply list_elem_of_further, list_elem_of_here.
  - unfold allFieldsEmpty. intros Hall. rewrite Forall_forall in Hall.
    assert (Hin : ("_subject", "New message from portfolio site")
                  ∈ FormData (form s'))
      by apply list_elem_of_further, list_elem_of_here.
    specialize (Hall _ Hin). discriminate Hall.
Qed.

(** C7. The request of a submission settles in exactly one of three
    ways, a 2xx response, another response, or a rejected [fetch], and
    each is reported by one call of [setToast] with a notice: the success
    text, the text made from the response, or the network-error text.
    In all three the handler then clears [sending] and registers one
    4000 millisecond timeout that clears the notice; it calls [fetch]
    no more, so no request is added to those issued. *)
Theorem submission_outcomes (s : PageState) (r : FetchResult)
        (data : list (string * string)) (rest : list (list (string * string))) :
  inflight s = data :: rest ->
  let s' := step s (Settle r) in
  exists t,
    toast s' = Some t /\
    ((exists res, r = Resolved res /\ ok res = true /\ outcome r = Sent /\
                  t = successToast) \/
     (exists res, r = Resolved res /\ ok res = false /\ outcome r = RemoteFailure /\
                  t = {| kind := error; text := msg (parsedBody res) |}) \/
     (r = Rejected /\ outcome r = TransportFailure /\
      t = {| kind := error; text := "Network error. Please try again." |})) /\
    List.filter isSetToast (handleContactSubmit_settled r) = [SetToast (Some t)] /\
    List.filter isFetch (handleContactSubmit_settled r) = [] /\
    List.filter isSetTimeout (handleContactSubmit_settled r) =
      [SetTimeout ClearToast 4000%nat] /\
    sent s' = sent s /\ inflight s' = rest /\ sending s' = false /\
    timers s' = timers s ++ [(ClearToast, 4000%nat)] /\
    toast (foldl step s' (replicate (length (timers s')) Timeout)) = None.
Proof.
  intros Hin s'.
  assert (Hclear : forall s1 : PageState,
             timers s1 = timers s ++ [(ClearToast, 4000%nat)] ->
             toast (foldl step s1 (replicate (length (timers s1)) Timeout)) = None).
  { intros s1 Ht.
    assert (Hlen : length (timers s1) = S (length (timers s)))
      by (rewrite Ht, length_app; simpl; lia).
    rewrite Hlen. now apply timeouts_clear_toast. }
  subst s'. simpl. rewrite Hin.
  unfold handleContactSubmit_settled, tryCatch, outcome.
  destruct r as [res|]; [destruct (ok res) eqn:Hok|].
  - exists successToast. split; [reflexivity|]. split.
    { left. now exists res. }
    repeat (split; [reflexivity|]). now apply Hclear.
  - eexists. split; [reflexivity|]. split.
    { right; left. now exists res. }
    repeat (split; [reflexivity|]). now apply Hclear.
  - exists networkToast. split; [reflexivity|]. split.
    { right; right. now repeat split. }
    repeat (split; [reflexivity|]). now apply Hclear.
Qed.

Lemma submission_outcomes_witness :
  let s := step (step initial (Input visitor_form)) Submit in
  toast (step s (Settle Rejected)) = Some networkToast /\
  sent (step s (Settle Rejected)) = [FormData visitor_form].
Proof.
  intros s.
  destruct (submission_outcomes s Rejected (FormData visitor_form) [] eq_refl)
    as (t & Htoast & _ & _ & _ & _ & Hsent & _).
  split; [reflexivity | exact Hsent].
Defined.

End ContactForm.

(** ** The text of the error notice *)

Section ErrorNotice.
Import Contact Samples.

Lemma filtered_messages (es : list FormspreeError) :
  map (default "") (List.filter Boolean (map message es)) = truthy_messages es.
Proof.
  unfold truthy_messages. induction es as [|e es IH]; [reflexivity|].
  cbn [map List.filter omap list_omap]. destruct (message e) as [m|]; simpl.
  - destruct (String.eqb_spec m "") as [-> | Hne]; simpl.
    + rewrite filter_cons_False by (intros H; now apply H). exact IH.
    + rewrite filter_cons_True by exact Hne. now rewrite <- IH.
  - exact IH.
Qed.

Lemma msg_errors (j : FormspreeResponse) (es : list FormspreeError) :
  errors j = Some es -> msg j = String.concat ", " (truthy_messages es).
Proof.
  intros He. unfold msg, errorsChain, join. rewrite He. simpl.
  now rewrite filtered_messages.
Qed.

(** C6, as amended. For a response that is not 2xx and whose body holds
    an [errors] array, the text of the error notice is made of the
    message fields that are present and not empty, in order, joined by a
    comma and a space; for [errors: [{message: "Invalid email"}]] it is
    exactly "Invalid email". *)
Theorem error_notice_joins_messages
        (res : Response) (j : FormspreeResponse) (es : list FormspreeError) :
  ok res = false -> json res = Some j -> errors j = Some es ->
  tryCatch (Resolved res) =
    [SetToast (Some {| kind := error;
                       text := String.concat ", " (truthy_messages es) |})] /\
  (forall f c, es = [ {| message := Some "Invalid email"; field := f; code := c |} ] ->
     tryCatch (Resolved res) =
       [SetToast (Some {| kind := error; text := "Invalid email" |})]).
Proof.
  intros Hok Hj He.
  assert (Htry : tryCatch (Resolved res) =
                 [SetToast (Some {| kind := error;
                                    text := String.concat ", " (truthy_messages es) |})]).
  { unfold tryCatch, parsedBody. rewrite Hok, Hj. simpl.
    now rewrite (msg_errors j es He). }
  split; [exact Htry|].
  intros f c ->. exact Htry.
Qed.

Lemma error_notice_joins_messages_witness :
  tryCatch (Resolved invalid_email) =
    [SetToast (Some {| kind := error; text := "Invalid email" |})].
Proof.
  destruct (error_notice_joins_messages invalid_email
              {| errors := Some [ {| message := Some "Invalid email";
                                     field := Some "email";
                                     code := Some "TYPE_EMAIL" |} ] |}
              [ {| message := Some "Invalid email"; field := Some "email";
                   code := Some "TYPE_EMAIL" |} ]
              eq_refl eq_refl eq_refl) as [_ Hone].
  exact (Hone (Some "email") (Some "TYPE_EMAIL") eq_refl).
Defined.

(** C6 as stated fails: two messages are not put one after the other,
    a comma and a space separate them. *)
Lemma error_notice_concatenation_counterexample :
  ok two_errors = false /\
  json two_errors = Some {| errors := Some two_messages |} /\
  concatenated_messages two_messages = "Invalid emailName is required" /\
  tryCatch (Resolved two_errors) =
    [SetToast (Some {| kind := error; text := "Invalid email, Name is required" |})] /\
  tryCatch (Resolved two_errors) <>
    [SetToast (Some {| kind := error;
                       text := concatenated_messages two_messages |})].
Proof.
  repeat (split; [reflexivity|]). vm_compute. discriminate.
Qed.

(** C10. For a response that is not 2xx: when the body holds an [errors]
    array none of whose entries has a non-empty message, the text of the
    notice is the empty string and not the fallback text; the fallback
    of [??] is taken exactly when the body cannot be parsed or has no
    [errors] field, and the text is then "Could not send message. Please
    try again.". *)
Theorem error_notice_fallback (res : Response) :
  ok res = false ->
  (forall j es,
      json res = Some j -> errors j = Some es ->
      (forall e, e ∈ es -> message e = None \/ message e = Some "") ->
      errorsChain j = Some "" /\
      tryCatch (Resolved res) = [SetToast (Some {| kind := error; text := "" |})] /\
      msg (parsedBody res) <> fallbackText) /\
  (errorsChain (parsedBody res) = None <->
   json res = None \/ exists j, json res = Some j /\ errors j = None) /\
  (errorsChain (parsedBody res) = None ->
   tryCatch (Resolved res) =
     [SetToast (Some {| kind := error;
                        text := "Could not send message. Please try again." |})]).
Proof.
  intros Hok. split; [|split].
  - intros j es Hj He Hnone.
    assert (Hempty : truthy_messages es = []).
    { unfold truthy_messages. clear He.
      induction es as [|e es IH]; [reflexivity|].
      cbn [omap list_omap].
      destruct (Hnone e) as [-> | ->]; [left | | ]; simpl.
      - apply IH. intros e' He'. apply Hnone. now right.
      - rewrite filter_cons_False by (intros H; now apply H).
        apply IH. intros e' He'. apply Hnone. now right. }
    assert (Hmsg : msg j = "") by (rewrite (msg_errors j es He), Hempty; reflexivity).
    split; [|split].
    + unfold errorsChain, join. rewrite He. simpl.
      now rewrite filtered_messages, Hempty.
    + unfold tryCatch, parsedBody. rewrite Hok, Hj. simpl. now rewrite Hmsg.
    + unfold parsedBody. rewrite Hj. simpl. rewrite Hmsg. discriminate.
  - unfold parsedBody, errorsChain. destruct (json res) as [j|]; simpl.
    + split.
      * intros Hnone. right. exists j. split; [reflexivity|].
        now destruct (errors j).
      * intros [Hno | (j' & [= <-] & ->)]; [discriminate | reflexivity].
    + split; [now left | reflexivity].
  - intros Hnone. unfold tryCatch. rewrite Hok. unfold msg. now rewrite Hnone.
Qed.

Lemma error_notice_fallback_witness :
  tryCatch (Resolved no_messages) = [SetToast (Some {| kind := error; text := "" |})].
Proof.
  destruct (error_notice_fallback no_messages eq_refl) as (Hempty & _ & _).
  destruct (Hempty {| errors := Some [ {| message := None; field := Some "email";
                                          code := Some "TYPE_EMAIL" |} ] |}
                   [ {| message := None; field := Some "email";
                        code := Some "TYPE_EMAIL" |} ]
                   eq_refl eq_refl) as (_ & Htext & _).
  - intros e He. apply list_elem_of_singleton in He. subst e. now left.
  - exact Htext.
Defined.

End ErrorNotice.

(** ** Project tabs *)

Section ProjectTabs.
Import Tabs.

Lemma tab_keys : map key tabs = ["research"; "applied"].
Proof. reflexivity. Qed.

Lemma click_key (i : nat) (tab : string) :
  click i tab = tab \/ click i tab ∈ map key tabs.
Proof.
  unfold click. destruct (tabs !! i) as [t|] eqn:Ht; [right | now left].
  apply list_elem_of_fmap. exists t. split; [reflexivity|].
  now apply list_elem_of_lookup_2 in Ht.
Qed.

Lemma reachable_tab (tab : string) :
  reachable tab -> tab ∈ ["research"; "applied"].
Proof.
  induction 1 as [|i tab _ IH].
  - unfold initialTab. set_solver.
  - destruct (click_key i tab) as [-> | Hin]; [exact IH|].
    now rewrite tab_keys in Hin.
Qed.

Lemma PROJECTS_keys (k : string) (ps : list Project) :
  PROJECTS !! k = Some ps -> k = "research" \/ k = "applied".
Proof.
  unfold PROJECTS. intros H.
  apply lookup_insert_Some in H as [[<- _] | [_ H]]; [now left|].
  apply lookup_insert_Some in H as [[<- _] | [_ H]]; [now right|].
  now rewrite lookup_empty in H.
Qed.

(** C8. The selected tab is, in every state of the component, one of
    the two keys "research" and "applied". For each of the two keys
    there is a button whose click, from any state, selects that key; the
    grid then shows one tile per project of the list stored under that
    key, in order, and no tile of a project stored under another key.
    The new selection depends on the button alone. *)
Theorem tab_shows_its_projects (tab k : string) :
  reachable tab -> k ∈ ["research"; "applied"] ->
  tab ∈ ["research"; "applied"] /\
  exists i ps,
    key <$> tabs !! i = Some k /\
    click i tab = k /\
    (forall tab', click i tab' = k) /\
    PROJECTS !! k = Some ps /\
    grid (click i tab) = Some (map card ps) /\
    (forall k' ps' p, k' <> k -> PROJECTS !! k' = Some ps' -> p ∈ ps' ->
                      card p ∉ map card ps).
Proof.
  intros Hreach Hk. split; [now apply reachable_tab|].
  assert (Hcases : k = "research" \/ k = "applied").
  { apply elem_of_cons in Hk as [Hk | Hk]; [now left | right].
    now apply list_elem_of_singleton in Hk. }
  destruct Hcases as [-> | ->].
  - exists 0%nat. eexists. repeat (split; [reflexivity|]).
    intros k' ps' p Hne Hps' Hp.
    destruct (PROJECTS_keys k' ps' Hps') as [-> | ->]; [congruence|].
    vm_compute in Hps'. injection Hps' as <-.
    repeat (apply elem_of_cons in Hp as [-> | Hp];
            [vm_compute; intros Hin;
             repeat (apply elem_of_cons in Hin as [[=] | Hin]);
             now apply elem_of_nil in Hin|]).
    now apply elem_of_nil in Hp.
  - exists 1%nat. eexists. repeat (split; [reflexivity|]).
    intros k' ps' p Hne Hps' Hp.
    destruct (PROJECTS_keys k' ps' Hps') as [-> | ->]; [|congruence].
    vm_compute in Hps'. injection Hps' as <-.
    repeat (apply elem_of_cons in Hp as [-> | Hp];
            [vm_compute; intros Hin;
             repeat (apply elem_of_cons in Hin as [[=] | Hin]);
             now apply elem_of_nil in Hin|]).
    now apply elem_of_nil in Hp.
Qed.

Lemma tab_shows_its_projects_witness :
  initialTab ∈ ["research"; "applied"] /\
  exists i ps,
    key <$> tabs !! i = Some "applied" /\
    click i initialTab = "applied" /\
    (forall tab', click i tab' = "applied") /\
    PROJECTS !! "applied" = Some ps /\
    grid (click i initialTab) = Some (map card ps) /\
    (forall k' ps' p, k' <> "applied" -> PROJECTS !! k' = Some ps' -> p ∈ ps' ->
                      card p ∉ map card ps).
Proof.
  apply (tab_shows_its_projects initialTab "applied").
  - apply tab_initial.
  - apply list_elem_of_further, list_elem_of_here.
Defined.

End ProjectTabs.

(** ** Deployment base path *)

Section BasePath.
Import Config.

Lemma isProd_spec (NODE_ENV : option string) :
  isProd NODE_ENV = true <-> NODE_ENV = Some "production".
Proof. unfold isProd. apply bool_decide_eq_true. Qed.

(** [BASE] and [next.config.mjs] follow the production flag and nothing else. *)
Lemma base_follows_flag (NODE_ENV : option string) :
  (NODE_ENV = Some "production" ->
   BASE NODE_ENV = "/portfolio_Uddipan" /\
   basePath (next_config_mjs NODE_ENV) = "/portfolio_Uddipan") /\
  (NODE_ENV <> Some "production" ->
   BASE NODE_ENV = "" /\ basePath (next_config_mjs NODE_ENV) = "").
Proof.
  unfold BASE, next_config_mjs. simpl. split.
  - intros H%isProd_spec. now rewrite H.
  - intros H. destruct (isProd NODE_ENV) eqn:Hp; [|now split].
    now apply isProd_spec in Hp.
Qed.

Lemma assetLinks_prefixed (NODE_ENV : option string) :
  Forall (fun url => exists p, url = BASE NODE_ENV +:+ p) (assetLinks NODE_ENV).
Proof.
  unfold assetLinks. repeat (constructor; [eexists; reflexivity|]).
  simpl. repeat (constructor; [eexists; reflexivity|]). constructor.
Qed.

(** [next.config.ts] reads no environment variable: its base path is
    the same for every value of NODE_ENV, in line with its own comment.
    It is not the file a build loads, see [loadConfig]. *)
Remark next_config_ts_ignores_flag :
  isProd (Some "development") = false /\
  BASE (Some "development") = "" /\
  basePath (next_config_mjs (Some "development")) = "" /\
  basePath next_config_ts = "/portfolio_Uddipan" /\
  assetPrefix next_config_ts = "/portfolio_Uddipan/" /\
  basePath next_config_ts <> BASE (Some "development").
Proof. repeat (split; [reflexivity|]). discriminate. Qed.

(** C9. The base path depends on NODE_ENV only through the test
    [NODE_ENV === "production"]: when it holds, [BASE] in the page and
    [basePath] of the configuration a build loads, [next.config.mjs],
    are both "/portfolio_Uddipan"; for every other value, and when the
    variable is unset, both are empty. Every static asset URL the page
    renders starts with [BASE]. *)
Theorem base_path_follows_production_flag (NODE_ENV : option string) :
  loadConfig NODE_ENV = Some ("next.config.mjs", next_config_mjs NODE_ENV) /\
  (NODE_ENV = Some "production" ->
   BASE NODE_ENV = "/portfolio_Uddipan" /\
   basePath (next_config_mjs NODE_ENV) = "/portfolio_Uddipan") /\
  (NODE_ENV <> Some "production" ->
   BASE NODE_ENV = "" /\ basePath (next_config_mjs NODE_ENV) = "") /\
  Forall (fun url => exists p, url = BASE NODE_ENV +:+ p) (assetLinks NODE_ENV).
Proof.
  split.
  { unfold loadConfig, CONFIG_FILES, configFiles. cbn [omap list_omap].
    rewrite lookup_insert_ne by discriminate.
    rewrite lookup_insert_ne by discriminate.
    rewrite lookup_empty, lookup_insert_eq. reflexivity. }
  destruct (base_follows_flag NODE_ENV) as [Hprod Hdev].
  split; [exact Hprod|]. split; [exact Hdev|]. apply assetLinks_prefixed.
Qed.

Lemma base_path_follows_production_flag_witness :
  BASE (Some "development") = "" /\
  basePath (next_config_mjs (Some "development")) = "" /\
  BASE (Some "production") = "/portfolio_Uddipan" /\
  basePath (next_config_mjs (Some "production")) = "/portfolio_Uddipan".
Proof.
  destruct (base_path_follows_production_flag (Some "development"))
    as (_ & _ & Hdev & _).
  destruct (base_path_follows_production_flag (Some "production"))
    as (_ & Hprod & _ & _).
  destruct Hdev as [Hb Hc]; [discriminate|].
  destruct (Hprod eq_refl) as [Hb' Hc'].
  repeat split; assumption.
Defined.

End BasePath.

(** * Further properties of the code *)

(** ** Recording offsets and scrolling *)

Section Offsets.
Import JsNumber Scroll Page Samples.

(** X1. [computeOffsets] records an offset for an identifier exactly
    when it is one of SECTION_IDS and its element exists; the offset is
    the element's top in the viewport plus the scroll position, the sum
    rounded as JavaScript rounds it. The object holds nothing else. *)
Theorem computeOffsets_records (d : Dom) (id : string) (off : Q) :
  computeOffsets d !! id = Some off <->
  id ∈ SECTION_IDS /\
  exists top, elementTop d id = Some top /\ off = jsAdd top (scrollY d).
Proof.
  rewrite computeOffsets_entry. destruct (decide (id ∈ SECTION_IDS)) as [Hin | Hnin].
  - destruct (elementTop d id) as [top|]; simpl; split.
    + intros [= <-]. split; [exact Hin|]. now exists top.
    + intros (_ & top' & [= <-] & ->). reflexivity.
    + discriminate.
    + intros (_ & top' & Hno & _). discriminate.
  - split; [discriminate|]. intros (Hin & _). contradiction.
Qed.

(** The offset the code records for 0.1 and 0.2 is the double
    0.30000000000000004, not three tenths. *)
Example computeOffsets_rounds_the_sum :
  exists off,
    computeOffsets {| scrollY := binary64 (2 # 10); innerHeight := 800%Q;
                      scrollHeight := 5000%Q; headerHeight := None;
                      elementTop := fun id => if String.eqb id "about"
                                              then Some (binary64 (1 # 10))
                                              else None |} !! "about" = Some off /\
    (off == 5404319552844596 # 18014398509481984)%Q /\ ~ (off == 3 # 10)%Q.
Proof.
  eexists. split; [vm_compute; reflexivity|].
  split; [vm_compute; reflexivity | vm_compute; discriminate].
Qed.

Lemma reached_after_recording (d : Dom) (id : string) :
  reached (computeOffsets d) (scrollPos d) id = true <->
  id ∈ SECTION_IDS /\
  exists top, elementTop d id = Some top /\
              (jsAdd top (scrollY d) <= scrollPos d)%Q.
Proof.
  unfold reached. rewrite computeOffsets_entry.
  destruct (decide (id ∈ SECTION_IDS)) as [Hin | Hnin].
  - destruct (elementTop d id) as [top|]; simpl.
    + rewrite Qle_bool_iff. split.
      * intros Hle. split; [exact Hin|]. now exists top.
      * now intros (_ & top' & [= <-] & Hle).
    + split; [discriminate|]. intros (_ & top' & Hno & _). discriminate.
  - split; [discriminate|]. intros (Hin & _). contradiction.
Qed.

(** X2. On mount ([computeOffsets(); onScroll()]), away from the bottom
    of the document, both steps read the same document: the active
    section is the one whose element exists with its top plus [scrollY]
    at most [y = scrollY + headerH + 10] while the next section's top
    plus [scrollY] is above [y], provided the sections declared before
    it exist with sums at most [y] too; every sum is rounded as
    JavaScript rounds it. The listeners are then installed. *)
Theorem mount_activates_section_under_header
        (s : PageState) (d : Dom) (i : nat) (a : string) (top : Q) :
  atBottom d = false ->
  declared_at i a -> elementTop d a = Some top ->
  (jsAdd top (scrollY d) <= jsAdd (jsAdd (scrollY d) (headerH d)) 10)%Q ->
  (forall j b, (j < i)%nat -> declared_at j b ->
               exists t, elementTop d b = Some t /\
                 (jsAdd t (scrollY d) <= jsAdd (jsAdd (scrollY d) (headerH d)) 10)%Q) ->
  (forall b t, declared_at (S i) b -> elementTop d b = Some t ->
               (jsAdd (jsAdd (scrollY d) (headerH d)) 10 < jsAdd t (scrollY d))%Q) ->
  active (step s (Mount d)) = a /\ listening (step s (Mount d)) = true.
Proof.
  intros Hnb Ha Htop Hle Hbefore Hnext. split; [|reflexivity].
  simpl. unfold onScroll. rewrite Hnb.
  apply (sectionLoop_between _ _ SECTION_IDS i a); [exact Ha | |].
  - intros j b Hj Hb. apply reached_after_recording.
    split; [now apply list_elem_of_lookup_2 in Hb|].
    destruct (decide (j = i)) as [-> | Hne].
    + unfold declared_at in Ha. rewrite Ha in Hb. injection Hb as <-.
      now exists top.
    + apply (Hbefore j b); [lia | exact Hb].
  - intros b Hb. apply not_true_is_false.
    intros (_ & t & Ht & Hlt)%reached_after_recording.
    specialize (Hnext b t Hb Ht). unfold scrollPos in Hlt. lra.
Qed.

Lemma mount_activates_section_under_header_witness :
  active (step initial (Mount (dom_at 1400%Q))) = "projects" /\
  listening (step initial (Mount (dom_at 1400%Q))) = true.
Proof.
  apply (mount_activates_section_under_header initial (dom_at 1400%Q)
           1%nat "projects" 0%Q).
  - vm_compute. reflexivity.
  - reflexivity.
  - reflexivity.
  - vm_compute. discriminate.
  - intros j b Hj Hb. assert (j = 0%nat) as -> by lia.
    injection Hb as <-. exists (600 - 1400)%Q. split; [reflexivity|].
    vm_compute. discriminate.
  - intros b t Hb Ht. injection Hb as <-.
    vm_compute in Ht. injection Ht as <-. vm_compute. reflexivity.
Defined.

End Offsets.

Section ScrollOrder.
Import Scroll Page Nav Samples.

(** The loop returns the end of a prefix of the identifiers, every one
    of which is reached. *)
Lemma sectionLoop_take offs y ids current :
  exists n, (n <= length ids)%nat /\
    Forall (fun id => reached offs y id = true) (take n ids) /\
    sectionLoop offs y ids current = default current (last (take n ids)).
Proof.
  destruct (sectionLoop_split offs y ids current)
    as (run & rest & -> & Hrun & _ & Heq).
  exists (length run). rewrite take_app_length.
  split; [rewrite length_app; lia|]. now split.
Qed.

Lemma reached_mono offs (y y' : Q) id :
  (y <= y')%Q -> reached offs y id = true -> reached offs y' id = true.
Proof.
  unfold reached. intros Hyy'. destruct (offs !! id) as [off|]; [|discriminate].
  rewrite !Qle_bool_iff. intros Hle. lra.
Qed.

Lemma sectionLoop_mono offs (y y' : Q) ids current :
  (y <= y')%Q ->
  exists n n', (n <= n')%nat /\ (n' <= length ids)%nat /\
    sectionLoop offs y ids current = default current (last (take n ids)) /\
    sectionLoop offs y' ids current = default current (last (take n' ids)).
Proof.
  intros Hyy'. revert current.
  induction ids as [|id ids IH]; intros current.
  - exists 0%nat, 0%nat. repeat split; lia.
  - cbn [sectionLoop]. destruct (reached offs y id) eqn:Hid.
    + rewrite (reached_mono offs y y' id Hyy' Hid).
      destruct (IH id) as (n & n' & Hnn' & Hn' & Hy & Hy').
      exists (S n), (S n'). cbn [take length].
      rewrite !last_cons_default. repeat split; [lia | lia | exact Hy | exact Hy'].
    + destruct (sectionLoop_take offs y' (id :: ids) current)
        as (n' & Hn' & _ & Hy').
      exists 0%nat, n'. cbn [sectionLoop] in Hy'.
      repeat split; [lia | exact Hn' | exact Hy'].
Qed.

Lemma atBottom_mono (d d' : Dom) :
  innerHeight d = innerHeight d' -> scrollHeight d = scrollHeight d' ->
  (scrollY d <= scrollY d')%Q -> atBottom d = true -> atBottom d' = true.
Proof.
  unfold atBottom. intros Hi Hs Hy. rewrite !Qle_bool_iff, <- Hi, <- Hs.
  intros Hb. eapply Qle_trans; [exact Hb|].
  rewrite <- Zle_Qle. apply Qceiling_resp_le. now apply jsAdd_mono.
Qed.

(** X3. With the same recorded offsets, header and window, scrolling
    further down never makes an earlier section active: the position of
    the active section in the declared order does not decrease. *)
Theorem onScroll_monotone (offs : gmap string Q) (d d' : Dom) :
  innerHeight d = innerHeight d' -> scrollHeight d = scrollHeight d' ->
  headerHeight d = headerHeight d' -> (scrollY d <= scrollY d')%Q ->
  exists i j, declared_at i (onScroll offs d) /\
              declared_at j (onScroll offs d') /\ (i <= j)%nat.
Proof.
  intros Hi Hs Hh Hy. unfold onScroll.
  destruct (atBottom d) eqn:Hb.
  - rewrite (atBottom_mono d d' Hi Hs Hy Hb).
    exists 6%nat, 6%nat. now repeat split.
  - assert (Hpos : (scrollPos d <= scrollPos d')%Q).
    { unfold scrollPos, headerH. rewrite Hh. now do 2 apply jsAdd_mono. }
    destruct (sectionLoop_mono offs _ _ SECTION_IDS "about" Hpos)
      as (n & n' & Hnn' & Hn' & -> & Hy').
    destruct (atBottom d').
    + exists (pred n), 6%nat. split; [apply declared_prefix_end; lia|].
      split; [reflexivity|]. simpl in Hn'. lia.
    + rewrite Hy'. exists (pred n), (pred n').
      split; [apply declared_prefix_end; lia|].
      split; [apply declared_prefix_end; lia | lia].
Qed.

Lemma onScroll_monotone_witness :
  exists i j,
    declared_at i (onScroll offsets_recorded (dom_at 700%Q)) /\
    declared_at j (onScroll offsets_recorded (dom_at 3000%Q)) /\ (i <= j)%nat.
Proof.
  apply (onScroll_monotone offsets_recorded (dom_at 700%Q) (dom_at 3000%Q));
    try reflexivity.
  vm_compute. discriminate.
Defined.

(** X4. A declared section that the loop does not reach, because its
    offset is missing from the record or above [y], stops the walk: away
    from the bottom of the document the active section is then declared
    before it, or is "about" when the unreached section is the first. *)
Theorem unreached_section_blocks_later
        (offs : gmap string Q) (d : Dom) (i : nat) (id : string) :
  atBottom d = false -> declared_at i id ->
  reached offs (scrollPos d) id = false ->
  exists j, declared_at j (onScroll offs d) /\ (j <= pred i)%nat.
Proof.
  intros Hnb Hid Hnot. unfold onScroll. rewrite Hnb.
  destruct (sectionLoop_take offs (scrollPos d) SECTION_IDS "about")
    as (n & Hn & Hrun & ->).
  exists (pred n). split; [now apply declared_prefix_end|].
  destruct (decide (n <= i)%nat) as [Hle | Hgt]; [lia|].
  exfalso. rewrite Forall_lookup in Hrun.
  specialize (Hrun i id). rewrite lookup_take_lt in Hrun by lia.
  specialize (Hrun Hid). congruence.
Qed.

Lemma unreached_section_blocks_later_witness :
  exists j, declared_at j (onScroll offsets_partial (dom_at 4000%Q)) /\
            (j <= 0)%nat.
Proof.
  apply (unreached_section_blocks_later offsets_partial (dom_at 4000%Q)
           1%nat "projects"); reflexivity.
Defined.

(** The invariant of the page on [active], for use below. *)
Lemma reachable_active_declared (s : PageState) :
  reachable s -> active s ∈ SECTION_IDS.
Proof.
  induction 1 as [|s ev _ IH]; [apply list_elem_of_here|].
  destruct ev as [d|d|d|d|f| |r| ]; simpl.
  - apply onScroll_declared.
  - destruct (listening s); [apply onScroll_declared | exact IH].
  - now destruct (listening s).
  - now destruct (listening s).
  - exact IH.
  - now rewrite active_run.
  - destruct (inflight s); [exact IH | now rewrite active_run].
  - destruct (timers s) as [|[[] ?] ?]; exact IH.
Qed.

(** X5. In every reachable state of the page exactly one link of the
    navigation bar is marked active: the link to the active section,
    labelled with its capitalised identifier. *)
Theorem exactly_one_active_link (s : PageState) :
  reachable s ->
  List.filter isActive (anchors (active s)) =
    [ {| href := "#" +:+ active s; text := capitalize (active s);
         isActive := true |} ] /\
  length (anchors (active s)) = length SECTION_IDS.
Proof.
  intros Hin%reachable_active_declared. split; [|reflexivity].
  unfold SECTION_IDS in Hin.
  repeat (apply elem_of_cons in Hin as [-> | Hin]; [reflexivity|]).
  now apply elem_of_nil in Hin.
Qed.

Lemma exactly_one_active_link_witness :
  List.filter isActive
    (anchors (active (step (step initial (Mount (dom_at 0%Q)))
                           (ScrollEv (dom_at 2100%Q))))) =
  [ {| href := "#certificates"; text := "Certificates"; isActive := true |} ].
Proof.
  apply (exactly_one_active_link
           (step (step initial (Mount (dom_at 0%Q))) (ScrollEv (dom_at 2100%Q)))).
  apply reach_step. apply reach_step. apply reach_initial.
Defined.

End ScrollOrder.

(** ** The theme toggle *)

Section ThemeToggle.
Import Theme.

Lemma classToggle_token (token : string) (force : bool) (cl : gset string) :
  token ∈ classToggle token force cl <-> force = true.
Proof.
  unfold classToggle. destruct force.
  - rewrite elem_of_union, elem_of_singleton. tauto.
  - rewrite elem_of_difference, elem_of_singleton. split; [tauto | discriminate].
Qed.

Lemma classToggle_other (token c : string) (force : bool) (cl : gset string) :
  c <> token -> c ∈ classToggle token force cl <-> c ∈ cl.
Proof.
  intros Hc. unfold classToggle. destruct force.
  - rewrite elem_of_union, elem_of_singleton. tauto.
  - rewrite elem_of_difference, elem_of_singleton. tauto.
Qed.

Lemma classToggle_absorb (token : string) (b b' : bool) (cl : gset string) :
  classToggle token b (classToggle token b' cl) = classToggle token b cl.
Proof.
  apply set_eq. intros c. destruct (decide (c = token)) as [-> | Hc].
  - now rewrite !classToggle_token.
  - now rewrite !classToggle_other by exact Hc.
Qed.

Lemma eqb_dark (t : string) : String.eqb t "dark" = true <-> t = "dark".
Proof. apply String.eqb_eq. Qed.

Lemma step_in_sync (s : ThemeState) (ev : Event) :
  ("dark" ∈ htmlClasses (step s ev) <-> theme (step s ev) = "dark") /\
  ("dark" ∈ bodyClasses (step s ev) <-> theme (step s ev) = "dark").
Proof.
  destruct ev as [p|]; simpl; rewrite !classToggle_token, !eqb_dark; tauto.
Qed.

Lemma step_other_classes (s : ThemeState) (ev : Event) (c : string) :
  c <> "dark" ->
  (c ∈ htmlClasses (step s ev) <-> c ∈ htmlClasses s) /\
  (c ∈ bodyClasses (step s ev) <-> c ∈ bodyClasses s).
Proof.
  intros Hc. destruct ev as [p|]; simpl;
    split; now apply classToggle_other.
Qed.

(** X6. After any events on the toggle, at least one, the class "dark"
    is on [<html>] and on [<body>] exactly when the theme is "dark", and
    every other class of both elements is as it was before. *)
Theorem dark_class_follows_theme (s : ThemeState) (evs : list Event) :
  evs <> [] ->
  let s' := foldl step s evs in
  ("dark" ∈ htmlClasses s' <-> theme s' = "dark") /\
  ("dark" ∈ bodyClasses s' <-> theme s' = "dark") /\
  (forall c, c <> "dark" ->
             (c ∈ htmlClasses s' <-> c ∈ htmlClasses s) /\
             (c ∈ bodyClasses s' <-> c ∈ bodyClasses s)).
Proof.
  intros Hne s'. subst s'.
  assert (Hframe : forall evs' c, c <> "dark" ->
            (c ∈ htmlClasses (foldl step s evs') <-> c ∈ htmlClasses s) /\
            (c ∈ bodyClasses (foldl step s evs') <-> c ∈ bodyClasses s)).
  { intros evs' c Hc. induction evs' as [|ev evs' IH] using rev_ind; [tauto|].
    rewrite foldl_app. cbn [foldl].
    destruct (step_other_classes (foldl step s evs') ev c Hc) as [Hh Hb].
    rewrite Hh, Hb. exact IH. }
  destruct evs as [|ev evs _] using rev_ind; [congruence|].
  rewrite foldl_app. cbn [foldl].
  destruct (step_in_sync (foldl step s evs) ev) as [Hh Hb].
  split; [exact Hh|]. split; [exact Hb|].
  intros c Hc. specialize (Hframe (evs ++ [ev]) c Hc).
  rewrite foldl_app in Hframe. exact Hframe.
Qed.

Lemma dark_class_follows_theme_witness :
  let s' := foldl step (pageLoad ∅) [MountEv false; Click] in
  theme s' = "dark" /\ "dark" ∈ bodyClasses s' /\ "antialiased" ∈ bodyClasses s'.
Proof.
  intros s'.
  destruct (dark_class_follows_theme (pageLoad ∅) [MountEv false; Click])
    as (_ & Hbody & Hother); [discriminate|].
  split; [reflexivity|]. split.
  - apply Hbody. reflexivity.
  - apply (Hother "antialiased"); [discriminate|].
    unfold pageLoad, layoutBodyClasses. cbn [bodyClasses].
    apply elem_of_list_to_set, list_elem_of_further, list_elem_of_here.
Defined.

(** X7. A click stores the new theme, and the next page load restores
    it whatever the system preference: after [toggle], a fresh document
    with the same [localStorage] mounts with the same theme, which is
    "light" or "dark", and shows the matching icon and class. *)
Theorem toggled_theme_survives_reload (s : ThemeState) (prefersDark : bool) :
  let s1 := toggle s in
  let s2 := mountEffect prefersDark (pageLoad (storage s1)) in
  theme s2 = theme s1 /\
  (theme s1 = "light" \/ theme s1 = "dark") /\
  storage s2 = storage s1 /\
  icon s2 = (if String.eqb (theme s1) "dark" then Sun else Moon) /\
  ("dark" ∈ htmlClasses s2 <-> theme s1 = "dark").
Proof.
  intros s1 s2.
  assert (Hstored : storage s1 !! "theme" = Some (theme s1)).
  { subst s1. unfold toggle. simpl. apply lookup_insert_eq. }
  assert (Hld : theme s1 = "light" \/ theme s1 = "dark").
  { subst s1. unfold toggle. simpl. destruct (String.eqb (theme s) "dark"); tauto. }
  clearbody s1.
  assert (Htheme : theme s2 = theme s1).
  { subst s2. unfold mountEffect, pageLoad, initialTheme. cbn [storage theme].
    now rewrite Hstored. }
  split; [exact Htheme|]. split; [exact Hld|].
  split; [reflexivity|]. split.
  - unfold icon. rewrite Htheme. reflexivity.
  - rewrite <- Htheme. subst s2. unfold mountEffect. cbn [htmlClasses theme].
    now rewrite classToggle_token, eqb_dark.
Qed.

(** X8. Once the button has been clicked, two more clicks change
    nothing: theme, stored preference and the classes of both elements
    are back where they were. *)
Theorem toggle_twice_restores (s : ThemeState) :
  toggle (toggle (toggle s)) = toggle s.
Proof.
  unfold toggle. cbn [mounted theme storage htmlClasses bodyClasses].
  rewrite !insert_insert_eq, !classToggle_absorb.
  now destruct (String.eqb (theme s) "dark").
Qed.

(** X9. On mount a stored value wins over the system preference and is
    taken as it is; [localStorage] is not written. When nothing is
    stored the system preference decides. A stored value other than
    "dark", even one that is not "light", leaves the page without the
    class "dark" and with the Moon icon, and the first click then
    selects and stores "dark". *)
Theorem mount_reads_stored_theme (s : ThemeState) (prefersDark : bool) :
  let s' := mountEffect prefersDark s in
  storage s' = storage s /\
  (forall v, storage s !! "theme" = Some v -> theme s' = v) /\
  (storage s !! "theme" = None ->
   theme s' = if prefersDark then "dark" else "light") /\
  (forall v, storage s !! "theme" = Some v -> v <> "dark" ->
     ("dark" ∉ htmlClasses s') /\ ("dark" ∉ bodyClasses s') /\ icon s' = Moon /\
     theme (toggle s') = "dark" /\ storage (toggle s') !! "theme" = Some "dark").
Proof.
  intros s'. subst s'. unfold mountEffect, initialTheme, icon, toggle.
  cbn [mounted theme storage htmlClasses bodyClasses].
  split; [reflexivity|]. split; [now intros v ->|]. split; [now intros ->|].
  intros v Hv Hne. rewrite Hv. unfold default, from_option, id.
  assert (Heqb : String.eqb v "dark" = false) by now apply String.eqb_neq.
  rewrite Heqb.
  split; [rewrite classToggle_token; discriminate|].
  split; [rewrite classToggle_token; discriminate|].
  split; [reflexivity|]. split; [reflexivity|]. apply lookup_insert_eq.
Qed.

Lemma mount_reads_stored_theme_witness :
  let s' := mountEffect true (pageLoad {["theme" := "blue"]}) in
  theme s' = "blue" /\ icon s' = Moon /\ theme (toggle s') = "dark".
Proof.
  intros s'.
  destruct (mount_reads_stored_theme (pageLoad {["theme" := "blue"]}) true)
    as (_ & Hstored & _ & Hother).
  split; [apply Hstored; reflexivity|].
  destruct (Hother "blue" eq_refl) as (_ & _ & Hicon & Htoggle & _);
    [discriminate|].
  split; [exact Hicon | exact Htoggle].
Defined.

End ThemeToggle.

(** ** Certificate tiles *)

Section CertificateTiles.
Import Config Certificates.

Lemma append_empty_r (s : string) : s +:+ "" = s.
Proof.
  induction s as [|c s IH]; [reflexivity|].
  change (String c (s +:+ "") = String c s). now rewrite IH.
Qed.

Lemma truthy_Some (x : option string) :
  truthy x = true <-> exists s, x = Some s /\ s <> "".
Proof.
  unfold truthy. destruct x as [s|].
  - rewrite negb_true_iff, String.eqb_neq. split.
    + intros Hne. now exists s.
    + now intros (s' & [= <-] & Hne).
  - split; [discriminate|]. now intros (s & Hs & _).
Qed.

(** X10. The line under a certificate's title shows the issuer and the
    year that are present and not empty, separated by " • " when both
    are; with neither, the line is not rendered. *)
Theorem subtitle_joins_present_parts (c : Cert) :
  subtitle c =
  match filter (fun s => s <> "") (omap id [issuer c; year c]) with
  | [] => None
  | parts => Some (String.concat " • " parts)
  end.
Proof.
  unfold subtitle, truthy.
  destruct (issuer c) as [i|], (year c) as [y|]; cbn [omap list_omap id];
    repeat match goal with
           | |- context [String.eqb ?s ""] =>
               destruct (String.eqb_spec s "") as [-> | ?]
           end;
    cbn [negb orb andb default from_option];
    rewrite ?filter_cons_True, ?filter_cons_False, ?filter_nil
      by (congruence || (intros H; now apply H));
    rewrite ?filter_cons_True, ?filter_cons_False, ?filter_nil
      by (congruence || (intros H; now apply H));
    cbn [String.concat String.append default from_option id];
    rewrite ?append_empty_r; reflexivity.
Qed.

(** X11. The row of links of a certificate tile holds, in this order,
    "View Image" when the image path is present and not empty, "Download
    PDF" likewise for the file path, both with the base path in front,
    and "Verify" for a verification URL, which is used as it is. Nothing
    else is linked, and the preview image is shown exactly when "View
    Image" is. *)
Theorem certificate_links (base : string) (c : Cert) (a : Action) :
  (a ∈ actions base c <->
   (exists p, image c = Some p /\ p <> "" /\
              a = {| caption := "View Image"; target := base +:+ p |}) \/
   (exists p, file c = Some p /\ p <> "" /\
              a = {| caption := "Download PDF"; target := base +:+ p |}) \/
   (exists u, verify c = Some u /\ u <> "" /\
              a = {| caption := "Verify"; target := u |})) /\
  (is_Some (preview base c) <->
   exists p, {| caption := "View Image"; target := base +:+ p |} ∈ actions base c).
Proof.
  assert (Hone : forall (x : option string) (mk : string -> Action),
             a ∈ (if truthy x then [mk (default "" x)] else []) <->
             exists p, x = Some p /\ p <> "" /\ a = mk p).
  { intros x mk. destruct (truthy x) eqn:Ht.
    - apply truthy_Some in Ht as (p & -> & Hp). rewrite list_elem_of_singleton.
      split; [intros ->; now exists p | now intros (p' & [= <-] & _ & ->)].
    - split; [now intros ?%elem_of_nil|].
      intros (p & -> & Hp & _).
      assert (truthy (Some p) = true) by (apply truthy_Some; now exists p).
      congruence. }
  split.
  - unfold actions. rewrite !elem_of_app.
    rewrite (Hone (image c) (fun p => {| caption := "View Image"; target := base +:+ p |})).
    rewrite (Hone (file c) (fun p => {| caption := "Download PDF"; target := base +:+ p |})).
    rewrite (Hone (verify c) (fun u => {| caption := "Verify"; target := u |})).
    reflexivity.
  - unfold preview, actions. destruct (truthy (image c)) eqn:Ht.
    + split; [|now eexists]. intros _. exists (default "" (image c)).
      apply elem_of_app. left. apply list_elem_of_here.
    + split; [now intros [? [=]]|]. intros (p & Hin). exfalso.
      rewrite app_nil_l in Hin. apply elem_of_app in Hin as [Hin | Hin].
      * destruct (truthy (file c)); [|now apply elem_of_nil in Hin].
        now apply list_elem_of_singleton in Hin.
      * destruct (truthy (verify c)); [|now apply elem_of_nil in Hin].
        now apply list_elem_of_singleton in Hin.
Qed.

(** X12. For every value of NODE_ENV the image and PDF links of a
    certificate tile start with the [basePath] that [next.config.mjs]
    computes for that value; outside production they are the paths of
    the data unchanged. *)
Theorem certificate_links_under_basePath
        (NODE_ENV : option string) (c : Cert) (a : Action) :
  a ∈ actions (BASE NODE_ENV) c -> caption a <> "Verify" ->
  exists p, (image c = Some p \/ file c = Some p) /\
            target a = basePath (next_config_mjs NODE_ENV) +:+ p /\
            (NODE_ENV <> Some "production" -> target a = p).
Proof.
  intros Hin Hcap.
  assert (Hbase : BASE NODE_ENV = basePath (next_config_mjs NODE_ENV)).
  { unfold BASE, next_config_mjs. simpl. now destruct (isProd NODE_ENV). }
  assert (Hdev : NODE_ENV <> Some "production" -> BASE NODE_ENV = "").
  { intros Hne. unfold BASE. destruct (isProd NODE_ENV) eqn:Hp; [|reflexivity].
    now apply isProd_spec in Hp. }
  unfold actions in Hin. rewrite !elem_of_app in Hin.
  destruct Hin as [Hin | [Hin | Hin]].
  - destruct (truthy (image c)) eqn:Ht; [|now apply elem_of_nil in Hin].
    apply truthy_Some in Ht as (p & Hp & _).
    apply list_elem_of_singleton in Hin. subst a. rewrite Hp. simpl.
    exists p. split; [now left|]. split; [now rewrite Hbase|].
    intros Hne. now rewrite (Hdev Hne).
  - destruct (truthy (file c)) eqn:Ht; [|now apply elem_of_nil in Hin].
    apply truthy_Some in Ht as (p & Hp & _).
    apply list_elem_of_singleton in Hin. subst a. rewrite Hp. simpl.
    exists p. split; [now right|]. split; [now rewrite Hbase|].
    intros Hne. now rewrite (Hdev Hne).
  - destruct (truthy (verify c)); [|now apply elem_of_nil in Hin].
    apply list_elem_of_singleton in Hin. subst a. simpl in Hcap. congruence.
Qed.

Lemma certificate_links_under_basePath_witness :
  exists p, (Some "/images/certificates/mcp.webp" = Some p \/ None = Some p) /\
            "/portfolio_Uddipan/images/certificates/mcp.webp" =
              "/portfolio_Uddipan" +:+ p /\
            (Some "production" <> Some "production" ->
             "/portfolio_Uddipan/images/certificates/mcp.webp" = p).
Proof.
  apply (certificate_links_under_basePath (Some "production")
           {| title := "MCP Certificate (Preview)"; issuer := Some "Microsoft";
              year := Some "—"; file := None;
              image := Some "/images/certificates/mcp.webp"; verify := None |}
           {| caption := "View Image";
              target := "/portfolio_Uddipan/images/certificates/mcp.webp" |}).
  - apply list_elem_of_here.
  - discriminate.
Defined.

End CertificateTiles.

(** ** Notices, timeouts and the form *)

Section NoticesAndForm.
Import Scroll Contact Page PageView Samples.

Lemma run_settled_fields (r : FetchResult) (s : PageState) :
  let s' := run (handleContactSubmit_settled r) s in
  (exists t, toast s' = Some t) /\
  timers s' = timers s ++ [(ClearToast, 4000%nat)] /\
  sending s' = false /\ inflight s' = inflight s /\ sent s' = sent s /\
  form s' = (match outcome r with Sent => resetForm | _ => form s end).
Proof.
  destruct (settled_state r s) as (t & Hrun & _). intros s'. subst s'.
  rewrite Hrun. split; [now exists t|]. now destruct (outcome r).
Qed.

(** X13. In every reachable state a notice on screen has a timeout
    pending that will clear it, and every pending timeout is a 4000
    millisecond timeout that clears the notice: no notice stays for
    good. *)
Theorem shown_notice_has_pending_timeout (s : PageState) :
  reachable s ->
  (toast s <> None -> timers s <> []) /\
  Forall (fun t => t = (ClearToast, 4000%nat)) (timers s).
Proof.
  induction 1 as [|s ev _ [IHt IHf]].
  - split; [intros Hn; now elim Hn | constructor].
  - destruct ev as [d|d|d|d|f| |r| ]; simpl.
    + now split.
    + now destruct (listening s).
    + now destruct (listening s).
    + now destruct (listening s).
    + now split.
    + now destruct (sending s).
    + destruct (inflight s) as [|data rest]; [now split|].
      destruct (run_settled_fields r (setInflight rest s))
        as (_ & Htimers & _). rewrite Htimers. simpl. split.
      * intros _ Hnil. now apply app_eq_nil in Hnil as [_ [=]].
      * apply Forall_app. split; [exact IHf | now repeat constructor].
    + destruct (timers s) as [|[[] ms] rest] eqn:Ht;
        [rewrite Ht; split; assumption|].
      simpl. split; [intros Hn; now elim Hn|]. now inversion IHf.
Qed.

Lemma shown_notice_has_pending_timeout_witness :
  let s := step (step (step initial (Input visitor_form)) Submit)
                (Settle (Resolved invalid_email)) in
  (toast s <> None -> timers s <> []) /\
  Forall (fun t => t = (ClearToast, 4000%nat)) (timers s).
Proof.
  intros s. apply (shown_notice_has_pending_timeout s).
  repeat apply reach_step. apply reach_initial.
Defined.

(** X14. Timeouts are not tied to the notice they were registered for:
    when a submission settles while a timeout of an earlier one is still
    pending, that earlier timeout, the next to fire, clears the new
    notice, and the new notice's own timeout stays pending. *)
Theorem earlier_timeout_clears_new_notice (s : PageState) (r : FetchResult) :
  reachable s -> sending s = false -> timers s <> [] ->
  let s1 := step (step s Submit) (Settle r) in
  toast s1 <> None /\
  toast (step s1 Timeout) = None /\
  timers (step s1 Timeout) = tail (timers s) ++ [(ClearToast, 4000%nat)].
Proof.
  intros Hreach Hs Hne s1.
  destruct (sending_tracks_inflight s Hreach) as [[Hs' _] | [_ Hin]];
    [congruence|].
  assert (Hs1 : s1 = run (handleContactSubmit_settled r)
                       (setInflight [] (issue (FormData (form s)) (setSending true s)))).
  { subst s1. simpl. rewrite Hs. simpl. now rewrite Hin. }
  destruct (run_settled_fields r
              (setInflight [] (issue (FormData (form s)) (setSending true s))))
    as ((t & Ht) & Htimers & _).
  rewrite <- Hs1 in Ht, Htimers. simpl in Htimers. clearbody s1.
  split; [congruence|].
  split.
  - apply timeout_clears_toast. rewrite Htimers.
    intros Hnil. now apply app_eq_nil in Hnil as [_ [=]].
  - rewrite timeout_timers, Htimers. now destruct (timers s).
Qed.

Lemma earlier_timeout_clears_new_notice_witness :
  let s := step (step (step initial (Input visitor_form)) Submit)
                (Settle (Resolved invalid_email)) in
  let s1 := step (step s Submit) (Settle Rejected) in
  toast s1 <> None /\ toast (step s1 Timeout) = None /\
  timers (step s1 Timeout) = [(ClearToast, 4000%nat)].
Proof.
  intros s s1.
  apply (earlier_timeout_clears_new_notice s Rejected).
  - repeat apply reach_step. apply reach_initial.
  - reflexivity.
  - discriminate.
Defined.

(** X15. What the visitor typed is changed only by the visitor and by a
    submission that succeeded: scrolling, resizing, submitting, a failed
    or rejected request and a timeout leave the fields of the form as
    they are. *)
Theorem form_changes_only_on_input_or_success (s : PageState) (ev : Event) :
  form (step s ev) <> form s ->
  (exists f, ev = Input f) \/
  (exists res, ev = Settle (Resolved res) /\ ok res = true /\
               form (step s ev) = resetForm).
Proof.
  destruct ev as [d|d|d|d|f| |r| ]; simpl; try congruence.
  - now destruct (listening s).
  - now destruct (listening s).
  - now destruct (listening s).
  - intros _. left. now exists f.
  - now destruct (sending s).
  - destruct (inflight s) as [|data rest]; [congruence|].
    destruct (run_settled_fields r (setInflight rest s))
      as (_ & _ & _ & _ & _ & Hform). rewrite Hform. simpl.
    unfold outcome. destruct r as [res|]; [|congruence].
    destruct (ok res) eqn:Hok; [|congruence].
    intros _. right. now exists res.
  - destruct (timers s) as [|[[] ms] rest]; simpl; intros Hn; now elim Hn.
Qed.

Lemma form_changes_only_on_input_or_success_witness :
  let s := step (step initial (Input visitor_form)) Submit in
  exists res, Settle (Resolved {| status := 204; json := None |}) =
              Settle (Resolved res) /\ ok res = true.
Proof.
  intros s.
  destruct (form_changes_only_on_input_or_success s
              (Settle (Resolved {| status := 204; json := None |})))
    as [(f & Hf) | (res & Hev & Hok & _)].
  - discriminate.
  - discriminate.
  - now exists res.
Defined.

(** X16. In every reachable state the submit button is disabled, and
    reads "Sending…", exactly while a request is in flight; at most one
    request is in flight, and it is the last one issued. *)
Theorem button_disabled_while_in_flight (s : PageState) :
  reachable s ->
  (disabled (submitButton s) = true <-> inflight s <> []) /\
  (caption (submitButton s) = "Submit" <-> inflight s = []) /\
  (length (inflight s) <= 1)%nat /\
  (forall data, data ∈ inflight s -> last (sent s) = Some data).
Proof.
  intros Hreach.
  assert (Hsent : exists older, sent s = older ++ inflight s).
  { induction Hreach as [|s ev _ [older IH]]; [now exists []|].
    destruct ev as [d|d|d|d|f| |r| ]; simpl.
    - now exists older.
    - destruct (listening s); now exists older.
    - destruct (listening s); now exists older.
    - destruct (listening s); now exists older.
    - now exists older.
    - destruct (sending s); simpl; [now exists older|].
      exists older. now rewrite IH, app_assoc.
    - destruct (inflight s) as [|data rest] eqn:Hin; [exists older; now rewrite Hin|].
      destruct (run_settled_fields r (setInflight rest s))
        as (_ & _ & _ & -> & -> & _). simpl.
      exists (older ++ [data]). now rewrite IH, <- app_assoc.
    - destruct (timers s) as [|[[] ms] rest]; now exists older. }
  destruct Hsent as [older Hsent].
  unfold submitButton. simpl.
  destruct (sending_tracks_inflight s Hreach) as [[Hs [data Hin]] | [Hs Hin]];
    rewrite Hs; rewrite Hin in *; simpl.
  - repeat split; try congruence; try lia.
    intros data' ->%list_elem_of_singleton. rewrite Hsent. apply last_snoc.
  - repeat split; try congruence; try lia.
    intros data' Hno. now apply elem_of_nil in Hno.
Qed.

Lemma button_disabled_while_in_flight_witness :
  let s := step (step initial (Input visitor_form)) Submit in
  disabled (submitButton s) = true /\ last (sent s) = Some (FormData visitor_form).
Proof.
  intros s.
  destruct (button_disabled_while_in_flight s) as (Hdis & _ & _ & Hlast).
  - repeat apply reach_step. apply reach_initial.
  - split; [apply Hdis; discriminate|].
    apply Hlast. apply list_elem_of_here.
Defined.

End NoticesAndForm.

(** ** Requests and tabs *)

Section RequestsAndTabs.
Import Contact Page Samples.

(** X17. A submit that is accepted, [sending] not being set, issues
    exactly one request, and its body is the form as it stands at that
    moment: the entries _gotcha, _subject, name, email and message in
    this order, holding the current value of each control and the fixed
    subject line. Every other event, and a submit while [sending] is
    set, leaves the list of issued requests as it is, so a request never
    changes once it is issued. *)
Theorem issued_requests_are_form_snapshots (s : PageState) (ev : Event) :
  (ev = Submit /\ sending s = false /\
   sent (step s ev) =
     sent s ++ [ [ ("_gotcha", input_gotcha (form s));
                   ("_subject", "New message from portfolio site");
                   ("name", input_name (form s));
                   ("email", input_email (form s));
                   ("message", textarea_message (form s)) ] ]) \/
  ((ev = Submit -> sending s = true) /\ sent (step s ev) = sent s).
Proof.
  destruct ev as [d|d|d|d|f| |r| ]; simpl.
  - right. split; [discriminate | reflexivity].
  - right. split; [discriminate | now destruct (listening s)].
  - right. split; [discriminate | now destruct (listening s)].
  - right. split; [discriminate | now destruct (listening s)].
  - right. split; [discriminate | reflexivity].
  - destruct (sending s); [right | left]; now split.
  - right. split; [discriminate|].
    destruct (inflight s) as [|data rest]; [reflexivity|].
    now destruct (run_settled_fields r (setInflight rest s))
      as (_ & _ & _ & _ & Hsent & _).
  - right. split; [discriminate|].
    now destruct (timers s) as [|[[] ms] rest].
Qed.

Lemma issued_requests_are_form_snapshots_witness :
  sent (step (step (step initial (Input visitor_form)) Submit) (Input resetForm)) =
  [ [ ("_gotcha", ""); ("_subject", "New message from portfolio site");
      ("name", "Ada"); ("email", "ada@example.org"); ("message", "Hello") ] ].
Proof.
  destruct (issued_requests_are_form_snapshots
              (step initial (Input visitor_form)) Submit)
    as [(_ & _ & Hsent) | (Hsending & _)].
  - destruct (issued_requests_are_form_snapshots
                (step (step initial (Input visitor_form)) Submit)
                (Input resetForm)) as [(Hev & _) | (_ & Hkeep)].
    + discriminate.
    + rewrite Hkeep. exact Hsent.
  - specialize (Hsending eq_refl). discriminate.
Defined.

End RequestsAndTabs.

Section TabButtons.
Import Tabs.

(** X18. In every state of the tab component exactly one button is
    highlighted, the one of the selected key, and the grid can be
    rendered; a selection outside the two keys, which no click produces,
    would make [PROJECTS[tab].map] fail. *)
Theorem one_tab_highlighted (tab : string) :
  reachable tab ->
  (exists t, List.filter (highlighted tab) tabs = [t] /\ key t = tab) /\
  is_Some (grid tab) /\
  (forall k, is_Some (grid k) <-> k ∈ map key tabs).
Proof.
  intros Hin%reachable_tab. split; [|split].
  - apply elem_of_cons in Hin as [-> | Hin]; [now eexists|].
    apply list_elem_of_singleton in Hin as ->. now eexists.
  - apply elem_of_cons in Hin as [-> | Hin]; [now eexists|].
    apply list_elem_of_singleton in Hin as ->. now eexists.
  - intros k. unfold grid. rewrite fmap_is_Some, tab_keys. split.
    + intros [ps Hps].
      destruct (PROJECTS_keys k ps Hps) as [-> | ->];
        [apply list_elem_of_here | apply list_elem_of_further, list_elem_of_here].
    + intros Hk. apply elem_of_cons in Hk as [-> | Hk]; [now eexists|].
      apply list_elem_of_singleton in Hk as ->. now eexists.
Qed.

Lemma one_tab_highlighted_witness :
  (exists t, List.filter (highlighted (click 1 initialTab)) tabs = [t] /\
             key t = click 1 initialTab) /\
  is_Some (grid (click 1 initialTab)) /\
  (forall k, is_Some (grid k) <-> k ∈ map key tabs).
Proof.
  apply (one_tab_highlighted (click 1 initialTab)).
  apply tab_click. apply tab_initial.
Defined.

End TabButtons.
